(** * The browser test orchestrator (packages/browser/src/client/orchestrator.ts)

    A shallow embedding of the orchestrator: the iframe registry, the set of
    running files, the channel listener, [done], [createTesters] and the
    serialising wrapper installed on the browser state, followed by the
    properties of the specification that concern them.

    JavaScript's [async] functions are modelled as resumptions: a function
    runs synchronously on the shared store up to its next [await], where it
    yields what it awaits together with its continuation. *)

From stdpp Require Import base strings list gmap sets.
From Stdlib Require Import ZArith.
From Stdlib Require QArith.Qcanon.

Set Warnings "-clear-no-such-hyp".

(** ** Data *)

(** [const ID_ALL = '__vitest_all__'] *)
Definition ID_ALL : string := "__vitest_all__".

(** An [HTMLIFrameElement] is known by its identity: the rank of the
    [document.createElement('iframe')] call that made it. *)
Abbreviation Handle := nat.

(** A promise of a [createTesters] activation, by rank of activation. *)
Abbreviation pid := nat.

(** A JS [number]: a finite double, which is a rational, or one of the
    values that are not. The orchestrator does no arithmetic on numbers: it
    hands them on and formats them. *)
Inductive number :=
| Finite (q : Qcanon.Qc)
| NegativeZero
| NaN
| Infinity (negative : bool).

Definition integer (z : Z) : number :=
  Finite (Qcanon.Q2Qc (QArith_base.inject_Z z)).

(** The attributes of an iframe that depend on the call: [src] is a function
    of the file ([url.pathname], a fixed infix and [encodeURIComponent(file)]),
    [style.width] and [style.height] are set by [setIframeViewport]:
    [Some n] is the value [`${n}px`], [None] the value of a new element. The
    constant attributes (loading, data-vitest, display, border, ...) are
    left out. *)
Record iframe := {
  src_file : string;
  style_width : option number;
  style_height : option number;
}.

(** The error object handed to [client.rpc.onUnhandledError]. *)
Record js_error := {
  err_name : string;
  err_message : string;
}.

(** [IframeChannelEvent], the payload of a channel message. [UnknownEvent]
    stands for [e.data] whose [type] is outside the declared union. *)
Inductive event :=
| IframeDoneEvent (filenames : list string) (id : string)
| IframeErrorEvent (error : js_error) (errorType : string)
                   (files : list string) (id : string)
| IframeViewportEvent (width height : number) (id : string)
| IframeViewportChannelEvent (ok : bool)
| UnknownEvent (type : string).

Definition event_type (e : event) : string :=
  match e with
  | IframeDoneEvent _ _ => "done"
  | IframeErrorEvent _ _ _ _ => "error"
  | IframeViewportEvent _ _ _ => "viewport"
  | IframeViewportChannelEvent true => "viewport:done"
  | IframeViewportChannelEvent false => "viewport:fail"
  | UnknownEvent type => type
  end.

(** What the orchestrator posts on the channel. *)
Inductive out_message :=
| ViewportFail (id : string) (error : string)
| ViewportDone (id : string).

(** Promises the orchestrator awaits from its collaborators. *)
Inductive call :=
| RpcDone                                        (* rpcDone() *)
| FinishBrowserTests                             (* client.rpc.finishBrowserTests() *)
| OnUnhandledError (error : js_error) (type : string)
| UiSetIframeViewport (width height : number).   (* ui.setIframeViewport(w, h) *)

(** What [debug] forwards; [String(arg)] of each argument is kept symbolic. *)
Inductive debug_arg :=
| DText (s : string)
| DJoined (files : list string)                  (* testFiles.join(', ') *)
| DJson (e : event).                             (* JSON.stringify(e.data) *)

(** The observable actions, in program order. [Finalize] marks an entry
    into [done]; [Appended] is [container.appendChild(iframe)]. *)
Inductive effect :=
| Called (c : call)
| Debug (args : list debug_arg)                  (* client.rpc.debug(...) *)
| Posted (m : out_message)                       (* channel.postMessage(m) *)
| Appended (file : string) (h : Handle)
| UiSetCurrentFileId (id : string)
| UiRunTestsFinish
| Finalize (testFinished : bool).

(** The module's mutable state and the part of the page it touches. *)
Record store := {
  iframes : gmap string Handle;        (* const iframes = new Map() *)
  runningFiles : gset string;          (* const runningFiles = new Set() *)
  promiseTesters : option pid;         (* let promiseTesters *)
  document : gmap Handle iframe;       (* every iframe element created so far *)
  next_handle : Handle;                (* rank of the next createElement *)
  children : list Handle;              (* the container's iframes, in order *)
  container_class : string;            (* container.className *)
  tester_ui : bool;                    (* does #tester-ui exist yet? *)
}.

(** [getConfig()], [getUiAPI()], the imported helpers and the browser's
    CSS parser, fixed for a page. An assignment to [style.width] or
    [style.height] of a text that the parser does not take as a length is
    dropped: the property keeps its value. *)
Record environment := {
  isolate : option bool;               (* config.isolate *)
  browser_ui : bool;                   (* config.browser.ui *)
  viewport : number * number;          (* config.browser.viewport *)
  css_length : number → bool;          (* is `${n}px` a length for the page? *)
  debug_flag : bool;                   (* VITEST_BROWSER_DEBUG set and not 'false' *)
  project_name : string;               (* config.name || '' *)
  root : string;                       (* config.root *)
  ui_api : bool;                       (* is getUiAPI() defined? *)
  relative : string → string → string; (* pathe *)
  generateHash : string → string;      (* @vitest/runner/utils *)
}.

(** ** Asynchronous functions as resumptions *)

Inductive outcome := Resolved | Rejected.

(** What a suspended activation is waiting for. *)
Inductive wait :=
| WTick                          (* an already settled value: one microtask *)
| WCall (c : call)               (* a promise of a collaborator *)
| WContainer                     (* the 30ms poll for #tester-ui *)
| WChannel                       (* the promise resolved by the loop's handler *)
| WPromise (p : pid).            (* a [promiseTesters] *)

(** Where an activation stands after running as far as it can. *)
#[warnings="-register-all"]
Inductive stage (A : Type) :=
| Returned (a : A)
| Thrown
| Suspended (w : wait) (k : outcome → store → store * list effect * stage A).
Arguments Returned {A} a.
Arguments Thrown {A}.
Arguments Suspended {A} w k.

Definition async (A : Type) : Type := store → store * list effect * stage A.

Definition ret {A} (a : A) : async A := λ s, (s, [], Returned a).
Definition throw {A} : async A := λ s, (s, [], Thrown).

Fixpoint bind_stage {A B} (r : stage A) (f : A → async B) (s : store)
  : store * list effect * stage B :=
  match r with
  | Returned a => f a s
  | Thrown => (s, [], Thrown)
  | Suspended w k =>
      (s, [], Suspended w (λ o s',
         let '(s1, l1, r1) := k o s' in
         let '(s2, l2, r2) := bind_stage r1 f s1 in
         (s2, l1 ++ l2, r2)))
  end.

Definition bind {A B} (f : A → async B) (m : async A) : async B :=
  λ s, let '(s1, l1, r1) := m s in
       let '(s2, l2, r2) := bind_stage r1 f s1 in
       (s2, l1 ++ l2, r2).

#[global] Instance async_ret : MRet async := @ret.
#[global] Instance async_bind : MBind async := @bind.

(** Synchronous primitives. *)
Definition gets {A} (f : store → A) : async A := λ s, (s, [], Returned (f s)).
Definition modify (f : store → store) : async unit := λ s, (f s, [], Returned tt).
Definition emit (e : effect) : async unit := λ s, (s, [e], Returned tt).

(** [await p]: give up control until [p] settles; a rejection is rethrown. *)
Definition await (w : wait) : async unit :=
  λ s, (s, [], Suspended w (λ o s',
    (s', [], match o with Resolved => Returned tt | Rejected => Thrown end))).

(** [await f(...)] for an [async function f] of this module: [f] runs up to
    its own completion, and the caller resumes one microtask later. *)
Definition awaited {A} (m : async A) : async A :=
  x ← m; await WTick;; mret x.

(** [await c(...)] for a collaborator's promise: the call is made now. *)
Definition awaited_call (c : call) : async unit :=
  emit (Called c);; await (WCall c).

(** [try { body } finally { final }] *)
Fixpoint finally_stage {A} (r : stage A) (final : async unit) (s : store)
  : store * list effect * stage A :=
  match r with
  | Returned a => (final;; mret a) s
  | Thrown => (final;; throw) s
  | Suspended w k =>
      (s, [], Suspended w (λ o s',
         let '(s1, l1, r1) := k o s' in
         let '(s2, l2, r2) := finally_stage r1 final s1 in
         (s2, l1 ++ l2, r2)))
  end.

Definition try_finally {A} (body : async A) (final : async unit) : async A :=
  λ s, let '(s1, l1, r1) := body s in
       let '(s2, l2, r2) := finally_stage r1 final s1 in
       (s2, l1 ++ l2, r2).

(** Running an activation to its end in one go, every awaited call settling
    as [o] says and every other awaited promise resolving. *)
Definition settle (o : call → outcome) (w : wait) : outcome :=
  match w with WCall c => o c | _ => Resolved end.

Fixpoint run_stage {A} (o : call → outcome) (r : stage A) (s : store)
  : store * list effect * option A :=
  match r with
  | Returned a => (s, [], Some a)
  | Thrown => (s, [], None)
  | Suspended w k =>
      let '(s1, l1, r1) := k (settle o w) s in
      let '(s2, l2, a) := run_stage o r1 s1 in
      (s2, l1 ++ l2, a)
  end.

Definition run {A} (o : call → outcome) (m : async A) (s : store)
  : store * list effect * option A :=
  let '(s1, l1, r1) := m s in
  let '(s2, l2, a) := run_stage o r1 s1 in
  (s2, l1 ++ l2, a).

(** ** Updating the store *)

Definition set_iframes (f : gmap string Handle → gmap string Handle) (s : store) : store :=
  {| iframes := f (iframes s); runningFiles := runningFiles s;
     promiseTesters := promiseTesters s; document := document s;
     next_handle := next_handle s; children := children s;
     container_class := container_class s; tester_ui := tester_ui s |}.

Definition set_runningFiles (f : gset string → gset string) (s : store) : store :=
  {| iframes := iframes s; runningFiles := f (runningFiles s);
     promiseTesters := promiseTesters s; document := document s;
     next_handle := next_handle s; children := children s;
     container_class := container_class s; tester_ui := tester_ui s |}.

Definition set_promiseTesters (p : option pid) (s : store) : store :=
  {| iframes := iframes s; runningFiles := runningFiles s;
     promiseTesters := p; document := document s;
     next_handle := next_handle s; children := children s;
     container_class := container_class s; tester_ui := tester_ui s |}.

Definition set_children (f : list Handle → list Handle) (s : store) : store :=
  {| iframes := iframes s; runningFiles := runningFiles s;
     promiseTesters := promiseTesters s; document := document s;
     next_handle := next_handle s; children := f (children s);
     container_class := container_class s; tester_ui := tester_ui s |}.

Definition set_container_class (c : string) (s : store) : store :=
  {| iframes := iframes s; runningFiles := runningFiles s;
     promiseTesters := promiseTesters s; document := document s;
     next_handle := next_handle s; children := children s;
     container_class := c; tester_ui := tester_ui s |}.

Definition set_tester_ui (b : bool) (s : store) : store :=
  {| iframes := iframes s; runningFiles := runningFiles s;
     promiseTesters := promiseTesters s; document := document s;
     next_handle := next_handle s; children := children s;
     container_class := container_class s; tester_ui := b |}.

(** [document.createElement('iframe')] with the attributes of [createIframe]. *)
Definition create_element (file : string) (s : store) : store :=
  {| iframes := iframes s; runningFiles := runningFiles s;
     promiseTesters := promiseTesters s;
     document := <[next_handle s := {| src_file := file; style_width := None;
                                       style_height := None |}]> (document s);
     next_handle := S (next_handle s); children := children s;
     container_class := container_class s; tester_ui := tester_ui s |}.

(** [iframe.style.width = `${width}px`; iframe.style.height = `${height}px`]:
    two assignments, each of which the page takes or drops on its own. *)
Definition assign_length (env : environment) (n : number) (old : option number)
  : option number :=
  if css_length env n then Some n else old.

Definition set_style (env : environment) (h : Handle) (width height : number)
    (s : store) : store :=
  {| iframes := iframes s; runningFiles := runningFiles s;
     promiseTesters := promiseTesters s;
     document := alter (λ i, {| src_file := src_file i;
                                style_width := assign_length env width (style_width i);
                                style_height := assign_length env height (style_height i) |})
                       h (document s);
     next_handle := next_handle s; children := children s;
     container_class := container_class s; tester_ui := tester_ui s |}.

(** The page before the module has run. *)
Definition initial_store : store :=
  {| iframes := ∅; runningFiles := ∅; promiseTesters := None; document := ∅;
     next_handle := 0; children := []; container_class := "";
     tester_ui := false |}.

(** ** The orchestrator *)

Section Orchestrator.

Context (env : environment).

(** [function debug(...args)] *)
Definition debug (args : list debug_arg) : async unit :=
  if debug_flag env then emit (Debug args) else mret tt.

(** [iframe.remove()]: the element leaves the page. *)
Definition iframe_remove (h : Handle) : async unit :=
  modify (set_children (filter (λ x, x ≠ h))).

(** [iframes.get(id)?.remove()] *)
Definition remove_registered (id : string) : async unit :=
  h ← gets (λ s, iframes s !! id);
  match h with
  | Some h => iframe_remove h
  | None => mret tt
  end.

(** [function createIframe(container, file)] *)
Definition createIframe (file : string) : async Handle :=
  has ← gets (λ s, bool_decide (is_Some (iframes s !! file)));
  (if has : bool then
     remove_registered file;;
     modify (set_iframes (delete file))
   else mret tt);;
  iframe ← gets next_handle;
  modify (create_element file);;
  modify (set_iframes <[file := iframe]>);;
  modify (set_children (λ c, c ++ [iframe]));;
  emit (Appended file iframe);;
  mret iframe.

(** [async function setIframeViewport(iframe, width, height)] *)
Definition setIframeViewport (iframe : Handle) (width height : number) : async unit :=
  if ui_api env then awaited_call (UiSetIframeViewport width height)
  else modify (set_style env iframe width height).

(** [async function done(testFinished = true)] *)
Definition done (testFinished : bool) : async unit :=
  emit (Finalize testFinished);;
  try_finally
    (awaited_call RpcDone;;
     awaited_call FinishBrowserTests)
    (if testFinished && ui_api env then emit UiRunTestsFinish else mret tt).

(** [function generateFileId(file)] *)
Definition generateFileId (file : string) : string :=
  generateHash env (relative env (root env) file +:+ project_name env).

(** The listener added to [channel] when the socket opens. *)
Definition listener (e : event) : async unit :=
  debug [DText "channel event"; DJson e];;
  match e with
  | IframeViewportEvent width height id =>
      iframe ← gets (λ s, iframes s !! id);
      match iframe with
      | None =>
          let message := "Cannot find iframe with id " +:+ id in
          emit (Posted (ViewportFail id message));;
          awaited_call (OnUnhandledError
            {| err_name := "Teardown Error"; err_message := message |}
            "Teardown Error")
      | Some iframe =>
          awaited (setIframeViewport iframe width height);;
          emit (Posted (ViewportDone id))
      end
  | IframeDoneEvent filenames id =>
      modify (set_runningFiles (λ r, foldl (λ r filename, r ∖ {[filename]}) r filenames));;
      size ← gets (λ s, size (runningFiles s));
      if bool_decide (size = 0) then
        (if ui_api env && bool_decide (1 < length filenames) then
           match last filenames with
           | Some file => emit (UiSetCurrentFileId (generateFileId file))
           | None => mret tt
           end
         else mret tt);;
        awaited (done true)
      else
        remove_registered id;;
        modify (set_iframes (delete id))
  | IframeErrorEvent error errorType _ iframeId =>
      modify (set_iframes (delete iframeId));;
      awaited_call (OnUnhandledError error errorType);;
      (if bool_decide (iframeId = ID_ALL)
       then modify (set_runningFiles (λ _, ∅))
       else modify (set_runningFiles (λ r, r ∖ {[iframeId]})));;
      size ← gets (λ s, size (runningFiles s));
      if bool_decide (size = 0) then awaited (done true) else mret tt
  | _ =>
      awaited_call (OnUnhandledError
        {| err_name := "Unexpected Event";
           err_message := "Unexpected event: " +:+ event_type e |}
        "Unexpected Event");;
      awaited (done false)
  end.

(** [async function getContainer(config)]. The timer that asks again every
    30ms until [#tester-ui] exists is one wait, [WContainer], which is over
    only once the element is there. *)
Definition getContainer : async unit :=
  if browser_ui env then
    element ← gets tester_ui;
    if element : bool then mret tt else await WContainer
  else mret tt.

(** The test of the handler that the isolated loop adds to [channel]:
    [e.data.type === 'done' || e.data.type === 'error']. *)
Definition completes (e : event) : bool :=
  bool_decide (event_type e = "done") || bool_decide (event_type e = "error").

(** The [for (const file of testFiles)] loop of [createTesters]. The promise
    awaited at the end of each round is resolved by the handler above. *)
Fixpoint isolated_loop (width height : number) (testFiles : list string) : async unit :=
  match testFiles with
  | [] => mret tt
  | file :: testFiles =>
      iframe ← createIframe file;
      awaited (setIframeViewport iframe width height);;
      await WChannel;;
      isolated_loop width height testFiles
  end.

(** [iframes.forEach(iframe => iframe.remove())] *)
Definition remove_all_iframes : async unit :=
  modify (λ s, set_children (filter (λ h, h ∉ (map_to_list (iframes s)).*2)) s).

(** [async function createTesters(testFiles)] *)
Definition createTesters (testFiles : list string) : async unit :=
  modify (set_runningFiles (λ _, list_to_set testFiles));;
  awaited getContainer;;
  (if browser_ui env then
     modify (set_container_class "scrolls");;
     modify (set_children (λ _, []))
   else mret tt);;
  let '(width, height) := viewport env in
  remove_all_iframes;;
  modify (set_iframes (λ _, ∅));;
  if bool_decide (isolate env = Some false) then
    iframe ← createIframe ID_ALL;
    awaited (setIframeViewport iframe width height)
  else
    isolated_loop width height testFiles.

(** [createTesters(files).finally(() => { promiseTesters = undefined })] *)
Definition createTesters_finally (files : list string) : async unit :=
  try_finally (createTesters files) (modify (set_promiseTesters None)).

(** The handler of the socket's [open] event, but for the listener it adds
    to [channel], which the event loop below keeps count of. *)
Definition on_open (testFiles : list string) : async unit :=
  debug [DText "test files"; DJoined testFiles];;
  modify (set_runningFiles (λ _, list_to_set testFiles));;
  if bool_decide (testFiles = []) then mret tt
  else awaited (createTesters testFiles).

End Orchestrator.

(** ** The event loop

    The page runs one activation at a time, from one [await] to the next.
    What happens between two awaits of an activation is decided by the
    inputs the page receives. *)

(** [getBrowserState().createTesters = async (files) => ...], by the
    [await] it is stopped at. *)
Inductive request :=
| AwaitPrevious (files : list string) (p : option pid)   (* await promiseTesters *)
| AwaitOwn (p : pid).                                    (* await promiseTesters, again *)

Inductive process :=
| Listening (r : stage unit)          (* an activation of the channel listener *)
| Testing (r : stage unit)            (* an activation of [createTesters] *)
| Requesting (q : request)            (* an activation of the wrapper *)
| Over (o : outcome).                 (* a settled activation *)

Record page := {
  mem : store;
  pool : list process;                (* every activation so far; a [pid] is a rank here *)
  trace : list effect;
  listeners : nat;                    (* how many times the socket has opened *)
  waiting : list pid;                 (* the loops whose handler is on the channel, oldest first *)
}.

Inductive input :=
| Open (testFiles : list string)      (* the socket opens; [getBrowserState().files] *)
| Request (files : list string)       (* someone calls [getBrowserState().createTesters] *)
| Message (e : event)                 (* a message arrives on the channel *)
| Settle (i : pid) (o : outcome)      (* what activation [i] awaits settles *)
| Mount.                              (* [#tester-ui] appears *)

Definition initial_page : page :=
  {| mem := initial_store; pool := []; trace := []; listeners := 0; waiting := [] |}.

Definition park (role : stage unit → process) (r : stage unit) : process :=
  match r with
  | Returned _ => Over Resolved
  | Thrown => Over Rejected
  | Suspended _ _ => role r
  end.

Definition on_channel (r : stage unit) : bool :=
  match r with Suspended WChannel _ => true | _ => false end.

(** A new activation runs at once, up to its first [await]. *)
Definition start (role : stage unit → process) (m : async unit) (pg : page) : page :=
  let '(s, l, r) := m (mem pg) in
  {| mem := s; pool := pool pg ++ [park role r]; trace := trace pg ++ l;
     listeners := listeners pg;
     waiting := if on_channel r then waiting pg ++ [length (pool pg)] else waiting pg |}.

(** Activation [i] goes on with [o], up to its next [await]. *)
Definition resume (i : pid) (o : outcome) (pg : page) : page :=
  let go role k :=
    let '(s, l, r) := k o (mem pg) in
    {| mem := s; pool := <[i := park role r]> (pool pg); trace := trace pg ++ l;
       listeners := listeners pg;
       waiting := if on_channel r then waiting pg ++ [i] else waiting pg |} in
  match pool pg !! i with
  | Some (Listening (Suspended _ k)) => go Listening k
  | Some (Testing (Suspended _ k)) => go Testing k
  | _ => pg
  end.

Definition settled (pg : page) (p : pid) : option outcome :=
  match pool pg !! p with
  | Some (Over o) => Some o
  | _ => None
  end.

(** Can the wait [w] end now, and how? [o] is what a collaborator answers. *)
Definition due (pg : page) (w : wait) (o : outcome) : option outcome :=
  match w with
  | WTick => Some Resolved
  | WCall _ => Some o
  | WContainer => if tester_ui (mem pg) then Some Resolved else None
  | WChannel => None
  | WPromise p => settled pg p
  end.

Definition with_mem (f : store → store) (pg : page) : page :=
  {| mem := f (mem pg); pool := pool pg; trace := trace pg;
     listeners := listeners pg; waiting := waiting pg |}.

Definition with_pool (f : list process → list process) (pg : page) : page :=
  {| mem := mem pg; pool := f (pool pg); trace := trace pg;
     listeners := listeners pg; waiting := waiting pg |}.

Section Loop.

Context (env : environment).

(** The wrapper, once what it awaits has settled as [o]. *)
Definition resume_request (i : pid) (q : request) (pg : page) : page :=
  match q with
  | AwaitPrevious files p =>
      match (match p with None => Some Resolved | Some p => settled pg p end) with
      | Some Resolved =>
          let own := length (pool pg) in
          let pg := start Testing (createTesters_finally env files) pg in
          let pg := with_mem (set_promiseTesters (Some own)) pg in
          with_pool <[i := Requesting (AwaitOwn own)]> pg
      | Some Rejected => with_pool <[i := Over Rejected]> pg
      | None => pg
      end
  | AwaitOwn p =>
      match settled pg p with
      | Some o => with_pool <[i := Over o]> pg
      | None => pg
      end
  end.

Definition settle_process (i : pid) (o : outcome) (pg : page) : page :=
  match pool pg !! i with
  | Some (Listening (Suspended w _)) | Some (Testing (Suspended w _)) =>
      match due pg w o with
      | Some o => resume i o pg
      | None => pg
      end
  | Some (Requesting q) => resume_request i q pg
  | _ => pg
  end.

(** A message is given to the listeners in the order they were added: those
    of [open] first, then the handlers of the loops, which resolve their
    promise when the message [completes]. *)
Definition deliver (e : event) (pg : page) : page :=
  let pg := Nat.iter (listeners pg) (start Listening (listener env e)) pg in
  if completes e then
    let handlers := waiting pg in
    let pg := {| mem := mem pg; pool := pool pg; trace := trace pg;
                 listeners := listeners pg; waiting := [] |} in
    foldl (λ pg i, resume i Resolved pg) pg handlers
  else pg.

Definition step (pg : page) (i : input) : page :=
  match i with
  | Open testFiles =>
      let pg := {| mem := mem pg; pool := pool pg; trace := trace pg;
                   listeners := S (listeners pg); waiting := waiting pg |} in
      start Testing (on_open env testFiles) pg
  | Request files =>
      with_pool (λ l, l ++ [Requesting (AwaitPrevious files (promiseTesters (mem pg)))]) pg
  | Message e => deliver e pg
  | Settle i o => settle_process i o pg
  | Mount => with_mem (set_tester_ui true) pg
  end.

Definition steps (pg : page) (inputs : list input) : page := foldl step pg inputs.

End Loop.

(** The [createTesters] activations that have not settled. *)
Definition is_testing (p : process) : bool :=
  match p with Testing _ => true | _ => false end.

Definition active_passes (pg : page) : nat := length (filter is_testing (pool pg)).

(** ** Reading a run *)

(** Sequencing of two complete runs: what [run] makes of a bind. *)
Definition then_run {A B} (x : store * list effect * option A)
    (f : A → store → store * list effect * option B) : store * list effect * option B :=
  match x with
  | (s1, l1, Some a) => let '(s2, l2, b) := f a s1 in (s2, l1 ++ l2, b)
  | (s1, l1, None) => (s1, l1, None)
  end.

Definition run_from {A} (o : call → outcome) (x : store * list effect * stage A)
  : store * list effect * option A :=
  let '(s1, l1, r1) := x in
  let '(s2, l2, a) := run_stage o r1 s1 in (s2, l1 ++ l2, a).

(** The store, the effects and the result of a run. *)
Definition store_after {A} (x : store * list effect * A) : store := x.1.1.
Definition effects_of {A} (x : store * list effect * A) : list effect := x.1.2.
Definition result_of {A} (x : store * list effect * A) : A := x.2.

(** The entries into [done], with their argument. *)
Definition finalize_calls (l : list effect) : list bool :=
  omap (λ e, match e with Finalize b => Some b | _ => None end) l.

(** The errors reported with [client.rpc.onUnhandledError]. *)
Definition reports (l : list effect) : list (js_error * string) :=
  omap (λ e, match e with
             | Called (OnUnhandledError err type) => Some (err, type)
             | _ => None
             end) l.

(** The messages posted on the channel. *)
Definition posts (l : list effect) : list out_message :=
  omap (λ e, match e with Posted m => Some m | _ => None end) l.

(** The calls made to the collaborators, reports of errors apart. *)
Definition flushes (l : list effect) : list call :=
  omap (λ e, match e with
             | Called RpcDone => Some RpcDone
             | Called FinishBrowserTests => Some FinishBrowserTests
             | _ => None
             end) l.

(** How many times the UI was told that the run has finished. *)
Definition ui_finishes (l : list effect) : nat :=
  length (omap (λ e, match e with UiRunTestsFinish => Some tt | _ => None end) l).

(** What [debug] adds to the effects of the listener. *)
Definition debug_effects (env : environment) (e : event) : list effect :=
  if debug_flag env then [Debug [DText "channel event"; DJson e]] else [].

(** What the [done] branch tells the UI before it finalizes. *)
Definition selection (env : environment) (filenames : list string) : list effect :=
  if ui_api env && bool_decide (1 < length filenames) then
    match last filenames with
    | Some file => [UiSetCurrentFileId (generateFileId env file)]
    | None => []
    end
  else [].

(** The effects and the result of a complete run of [done]. *)
Definition done_effects (env : environment) (o : call → outcome) (testFinished : bool)
  : list effect :=
  Finalize testFinished :: Called RpcDone ::
  match o RpcDone with Resolved => [Called FinishBrowserTests] | Rejected => [] end ++
  if testFinished && ui_api env then [UiRunTestsFinish] else [].

Definition done_result (o : call → outcome) : option unit :=
  match o RpcDone, o FinishBrowserTests with
  | Resolved, Resolved => Some tt
  | _, _ => None
  end.

Definition resolved (o : outcome) : option unit :=
  match o with Resolved => Some tt | Rejected => None end.

(** The error the [viewport] branch reports for an unknown [id], and the one
    the [default] branch reports. *)
Definition missing_iframe (id : string) : js_error :=
  {| err_name := "Teardown Error";
     err_message := "Cannot find iframe with id " +:+ id |}.

Definition unexpected_event (e : event) : js_error :=
  {| err_name := "Unexpected Event";
     err_message := "Unexpected event: " +:+ event_type e |}.

(** The store after [iframes.get(id)?.remove()]. *)
Definition detach (id : string) (s : store) : store :=
  match iframes s !! id with
  | Some h => set_children (filter (λ x, x ≠ h)) s
  | None => s
  end.

(** ** Pages to try the orchestrator on *)

(** The lengths a browser takes for [width] and [height]: a finite number
    of pixels that is not negative. *)
Definition non_negative (n : number) : bool :=
  match n with
  | Finite q => bool_decide (0 ≤ QArith_base.Qnum (Qcanon.this q))%Z
  | NegativeZero => true
  | NaN | Infinity _ => false
  end.

(** Isolated mode without a UI: the defaults of a headless run. *)
Definition headless : environment :=
  {| isolate := None; browser_ui := false; viewport := (integer 414, integer 896);
     css_length := non_negative;
     debug_flag := false; project_name := ""; root := "/"; ui_api := false;
     relative := λ _ file, file; generateHash := λ x, x |}.

(** Shared mode: [isolate: false]. *)
Definition shared : environment :=
  {| isolate := Some false; browser_ui := false; viewport := (integer 414, integer 896);
     css_length := non_negative;
     debug_flag := false; project_name := ""; root := "/"; ui_api := false;
     relative := λ _ file, file; generateHash := λ x, x |}.

(** Isolated mode inside the UI. *)
Definition with_ui : environment :=
  {| isolate := Some true; browser_ui := true; viewport := (integer 414, integer 896);
     css_length := non_negative;
     debug_flag := true; project_name := "unit"; root := "/"; ui_api := true;
     relative := λ _ file, file; generateHash := λ x, x |}.

(** Every awaited call resolves; every awaited call is rejected. *)
Definition all_resolve : call → outcome := λ _, Resolved.
Definition all_reject : call → outcome := λ _, Rejected.

(** The store with [files] running and the handles of [registry] on the page. *)
Definition store_with (files : list string) (registry : list (string * Handle)) : store :=
  {| iframes := list_to_map registry; runningFiles := list_to_set files;
     promiseTesters := None;
     document := list_to_map ((λ x, (x.2, {| src_file := x.1; style_width := None;
                                               style_height := None |})) <$> registry);
     next_handle := S (foldr max 0 registry.*2); children := registry.*2;
     container_class := ""; tester_ui := false |}.

(** ** The registry *)

(** Everything the module does to [iframes] and to the iframes of the
    container: [createIframe]; the removal in the [done] branch; the
    [iframes.delete] of the [error] branch; [container.textContent = '']
    and the removal of every iframe in [createTesters]. *)
Inductive registry_op :=
| OpCreate (file : string)
| OpRemove (id : string)
| OpForget (id : string)
| OpEmptyContainer
| OpRemoveAll.

Definition apply_op (s : store) (op : registry_op) : store :=
  match op with
  | OpCreate file => store_after (run all_resolve (createIframe file) s)
  | OpRemove id =>
      store_after (run all_resolve
        (remove_registered id;; modify (set_iframes (delete id))) s)
  | OpForget id => set_iframes (delete id) s
  | OpEmptyContainer => set_children (λ _, []) s
  | OpRemoveAll =>
      store_after (run all_resolve
        (remove_all_iframes;; modify (set_iframes (λ _, ∅))) s)
  end.

(** The iframes on the page that the registry keeps under [id]. *)
Definition live_handles (s : store) (id : string) : list Handle :=
  filter (λ h, iframes s !! id = Some h) (children s).

(** What every store the module can reach satisfies. *)
Record registry_ok (s : store) : Prop := {
  children_nodup : NoDup (children s);
  children_made : ∀ h, h ∈ children s → h < next_handle s;
  iframes_made : ∀ id h, iframes s !! id = Some h → h < next_handle s;
  iframes_inj : ∀ id1 id2 h,
    iframes s !! id1 = Some h → iframes s !! id2 = Some h → id1 = id2;
}.

(** ** One activation among others *)

(** What can be seen of one activation while the page goes on around it:
    its effects, the settling of what it awaits, and the messages that the
    handler of the isolated loop lets through. *)
Inductive item :=
| Did (e : effect)
| Resumed (w : wait) (o : outcome)
| Observed (e : event).

(** The behaviours of an activation from a suspension on. Whenever it is
    resumed, the store may be any store: other activations have run. The
    wait on the channel ends with a message that [completes], and only so. *)
Inductive unfolds {A} : stage A → list item → Prop :=
| unfolds_stop r : unfolds r []
| unfolds_settle w k o s s' l r items :
    w ≠ WChannel →
    k o s = (s', l, r) →
    unfolds r items →
    unfolds (Suspended w k) (Resumed w o :: (Did <$> l) ++ items)
| unfolds_message k e s s' l r items :
    completes e = true →
    k Resolved s = (s', l, r) →
    unfolds r items →
    unfolds (Suspended WChannel k) (Observed e :: (Did <$> l) ++ items).

Definition behaves {A} (m : async A) (items : list item) : Prop :=
  ∃ s s' l r rest, m s = (s', l, r) ∧ unfolds r rest ∧ items = (Did <$> l) ++ rest.

(** The files of the iframes put on the page, in order. *)
Definition created (items : list item) : list string :=
  omap (λ i, match i with Did (Appended file _) => Some file | _ => None end) items.

(** The iframes put on the page and the completing messages, in order. *)
Definition marks (items : list item) : list (string + event) :=
  omap (λ i, match i with
             | Did (Appended file _) => Some (inl file)
             | Observed e => Some (inr e)
             | _ => None
             end) items.

(** The marks of the isolated loop on [files]: an iframe for the first file,
    then a completing message, then the same for the other files. *)
Inductive alternates : list string → list (string + event) → Prop :=
| alternates_nil files : alternates files []
| alternates_created file files : alternates (file :: files) [inl file]
| alternates_observed file files e tail :
    completes e = true →
    alternates files tail →
    alternates (file :: files) (inl file :: inr e :: tail).

(** The suspensions of one round of the isolated loop, [files] being the
    files of the rounds to come: on the channel; one microtask before that;
    and, with a UI, on the UI's [setIframeViewport] before that. *)
Definition at_channel (env : environment) (width height : number) (files : list string)
    (r : stage unit) : Prop :=
  ∃ k, r = Suspended WChannel k ∧
       ∀ s, k Resolved s = isolated_loop env width height files s.

Definition at_tick (env : environment) (width height : number) (files : list string)
    (r : stage unit) : Prop :=
  ∃ k, r = Suspended WTick k ∧
       ∀ o s, ∃ r', k o s = (s, [], r') ∧
         match o with
         | Resolved => at_channel env width height files r'
         | Rejected => r' = Thrown
         end.

Definition at_viewport (env : environment) (width height : number) (files : list string)
    (r : stage unit) : Prop :=
  at_tick env width height files r ∨
  ∃ c k, r = Suspended (WCall c) k ∧
         ∀ o s, ∃ r', k o s = (s, [], r') ∧
           match o with
           | Resolved => at_tick env width height files r'
           | Rejected => r' = Thrown
           end.

(** The store in which [createTesters] enters its loop. *)
Definition torn_down (env : environment) (s : store) : store :=
  let s := if browser_ui env
           then set_children (λ _, []) (set_container_class "scrolls" s) else s in
  set_iframes (λ _, ∅)
    (set_children (filter (λ h, h ∉ (map_to_list (iframes s)).*2)) s).

(** [createTesters] from the end of [await getContainer(config)] on. *)
Definition after_container (env : environment) (testFiles : list string) : async unit :=
  (if browser_ui env then
     modify (set_container_class "scrolls");;
     modify (set_children (λ _, []))
   else mret tt);;
  let '(width, height) := viewport env in
  remove_all_iframes;;
  modify (set_iframes (λ _, ∅));;
  if bool_decide (isolate env = Some false) then
    iframe ← createIframe ID_ALL;
    awaited (setIframeViewport env iframe width height)
  else
    isolated_loop env width height testFiles.

(** The suspensions of [createTesters] before its loop, in isolated mode. *)
Definition at_start (env : environment) (files : list string) (r : stage unit) : Prop :=
  ∃ k, r = Suspended WTick k ∧
       ∀ o s, k o s =
         match o with
         | Resolved => isolated_loop env (viewport env).1 (viewport env).2 files
                         (torn_down env s)
         | Rejected => (s, [], Thrown)
         end.

Definition at_container (env : environment) (files : list string) (r : stage unit) : Prop :=
  at_start env files r ∨
  ∃ k, r = Suspended WContainer k ∧
       ∀ o s, ∃ r', k o s = (s, [], r') ∧
         match o with
         | Resolved => at_start env files r'
         | Rejected => r' = Thrown
         end.

(** What is seen of a round after its iframe is on the page: nothing yet,
    or a completing message and then the rounds of [files]. *)
Definition round_ends (files : list string) (items : list item) : Prop :=
  marks items = [] ∨
  ∃ e tail, completes e = true ∧ marks items = inr e :: tail ∧ alternates files tail.

(** ** Three overlapping requests *)

(** The socket opens on a page without files; a first request starts its
    run; a second and a third request arrive while the iframe of the first
    is at work; that iframe reports [done]; the three requests go on, in
    the order in which they began to wait. *)
Definition three_requests : list input :=
  [Open [];
   Request ["a"]; Settle 1 Resolved; Settle 2 Resolved; Settle 2 Resolved;
   Request ["b"]; Request ["c"];
   Message (IframeDoneEvent ["a"] "a");
   Settle 1 Resolved; Settle 3 Resolved; Settle 4 Resolved].

(** The same with the second request alone. *)
Definition two_requests : list input :=
  [Open [];
   Request ["a"]; Settle 1 Resolved; Settle 2 Resolved; Settle 2 Resolved;
   Request ["b"]; Settle 3 Resolved].

(** ** The store, one synchronous stretch at a time *)

(** The store that [createIframe] leaves. *)
Definition created_store (file : string) (s : store) : store :=
  set_children (λ c, c ++ [next_handle s])
    (set_iframes <[file := next_handle s]>
       (create_element file
          (if bool_decide (is_Some (iframes s !! file))
           then set_iframes (delete file) (detach file s) else s))).

(** What a stretch of the module between two awaits can do to the store:
    change the running files or [promiseTesters], size an iframe, make an
    iframe ([createIframe]), remove the iframe of an id (the [done]
    branch), forget the handle of an id (the [error] branch), and tear
    down the iframes of the last run ([createTesters]). The last case of
    all is the page's own: [#tester-ui] comes or goes. *)
Inductive block (env : environment) : store → store → Prop :=
| block_running f s : block env s (set_runningFiles f s)
| block_promise p s : block env s (set_promiseTesters p s)
| block_style h width height s : block env s (set_style env h width height s)
| block_create file s : block env s (created_store file s)
| block_remove id s : block env s (set_iframes (delete id) (detach id s))
| block_forget id s : block env s (set_iframes (delete id) s)
| block_teardown s : block env s (torn_down env s)
| block_tester_ui b s : block env s (set_tester_ui b s).

(** An activation all of whose stretches are sequences of such changes. *)
Inductive tame (env : environment) {A} : stage A → Prop :=
| tame_returned a : tame env (Returned a)
| tame_thrown : tame env Thrown
| tame_suspended w k :
    (∀ o s, rtc (block env) s (k o s).1.1) →
    (∀ o s, tame env (k o s).2) →
    tame env (Suspended w k).

Definition tame_async (env : environment) {A} (m : async A) : Prop :=
  ∀ s, rtc (block env) s (m s).1.1 ∧ tame env (m s).2.

Definition tame_process (env : environment) (p : process) : Prop :=
  match p with
  | Listening r | Testing r => tame env r
  | _ => True
  end.

(** A property of the store that no change of the module breaks. *)
Definition stable (env : environment) (Inv : store → Prop) : Prop :=
  ∀ s s', block env s s' → Inv s → Inv s'.

(** The registry and the page agree: [registry_ok], and every handle of
    the registry is the handle of an iframe on the page. *)
Record page_ok (s : store) : Prop := {
  page_registry : registry_ok s;
  page_attached : ∀ id h, iframes s !! id = Some h → h ∈ children s;
}.

(** An iframe that is on the page though the registry has forgotten it. *)
Record orphan (h : Handle) (s : store) : Prop := {
  orphan_attached : h ∈ children s;
  orphan_forgotten : ∀ id, iframes s !! id ≠ Some h;
  orphan_made : h < next_handle s;
}.

(** The file ids the UI was told to select. *)
Definition selections (l : list effect) : list string :=
  omap (λ e, match e with UiSetCurrentFileId id => Some id | _ => None end) l.

(** ** The beginning of [createTesters], in either mode *)

(** An activation that goes on with [X] one microtask later. *)
Definition resumes_with (X : async unit) (r : stage unit) : Prop :=
  ∃ k, r = Suspended WTick k ∧
       ∀ o t, k o t = match o with Resolved => X t | Rejected => (t, [], Thrown) end.

(** An activation that puts no iframe on the page and does not wait on the
    channel, from here on. *)
Inductive quiet {A} : stage A → Prop :=
| quiet_returned a : quiet (Returned a)
| quiet_thrown : quiet Thrown
| quiet_suspended w k :
    w ≠ WChannel →
    (∀ o s, marks (Did <$> (k o s).1.2) = []) →
    (∀ o s, quiet (k o s).2) →
    quiet (Suspended w k).

(** ** One activation among others, with the store *)

(** A stretch of an activation, from one [await] to the next: what set it
    going ([None] for the call itself), what it did, and the store it left. *)
Record stretch := {
  cause : option item;
  effects : list effect;
  reached : store;
}.

(** The behaviours of [unfolds], with the store that each stretch leaves. *)
Inductive unfolds_on {A} : stage A → list stretch → Prop :=
| unfolds_on_stop r : unfolds_on r []
| unfolds_on_settle w k o s s' l r rest :
    w ≠ WChannel →
    k o s = (s', l, r) →
    unfolds_on r rest →
    unfolds_on (Suspended w k)
      ({| cause := Some (Resumed w o); effects := l; reached := s' |} :: rest)
| unfolds_on_message k e s s' l r rest :
    completes e = true →
    k Resolved s = (s', l, r) →
    unfolds_on r rest →
    unfolds_on (Suspended WChannel k)
      ({| cause := Some (Observed e); effects := l; reached := s' |} :: rest).

Definition runs_through {A} (m : async A) (sts : list stretch) : Prop :=
  ∃ s s' l r rest, m s = (s', l, r) ∧ unfolds_on r rest ∧
    sts = {| cause := None; effects := l; reached := s' |} :: rest.

(** What is seen of the stretches, in order. *)
Definition items_of (sts : list stretch) : list item :=
  sts ≫= λ st, option_list (cause st) ++ (Did <$> effects st).

(** A stretch that leaves every iframe it has put on the page registered
    under its file, on the page, and with the [src] of that file. *)
Definition registers (st : stretch) : Prop :=
  ∀ file h, Appended file h ∈ effects st →
    iframes (reached st) !! file = Some h ∧ h ∈ children (reached st) ∧
    src_file <$> document (reached st) !! h = Some file.

(** ** A run whose rounds end with the [done] of their own iframe *)

(** What [bind] makes of the rest of an activation: after [x], go on with
    [f]. *)
Definition then_stage {A B} (f : A → async B) (x : store * list effect * stage A)
  : store * list effect * stage B :=
  let '(s1, l1, r1) := x in
  let '(s2, l2, r2) := bind_stage r1 f s1 in
  (s2, l1 ++ l2, r2).

(** An activation that leaves the store as it is from here on, and does not
    wait on the channel. *)
Inductive idle {A} : stage A → Prop :=
| idle_returned a : idle (Returned a)
| idle_thrown : idle Thrown
| idle_suspended w k :
    w ≠ WChannel →
    (∀ o s, (k o s).1.1 = s) →
    (∀ o s, idle (k o s).2) →
    idle (Suspended w k).

Definition idle_async {A} (m : async A) : Prop := ∀ s, (m s).1.1 = s ∧ idle (m s).2.

(** [R] is [r] inside a caller that goes on with [f]. *)
Definition wraps {A B} (f : A → async B) (r : stage A) (R : stage B) : Prop :=
  ∃ w k, r = Suspended w k ∧ R = Suspended w (λ o s, then_stage f (k o s)).

(** Anywhere in a round of the isolated loop. *)
Definition in_round (env : environment) (width height : number) (files : list string)
    (r : stage unit) : Prop :=
  at_viewport env width height files r ∨ at_channel env width height files r.

(** The store during the round of [file], [files] being the files to come:
    the iframe of [file] is alone on the page and in the registry, and the
    files still running are those of the rounds not over, or none after the
    last round; or the iframe has been removed and no other is there. *)
Definition round_store (file : string) (files : list string) (s : store) : Prop :=
  (∃ h, iframes s = {[file := h]} ∧ children s = [h] ∧
        (runningFiles s = list_to_set (file :: files) ∨
         (files = [] ∧ runningFiles s = ∅))) ∨
  (iframes s = ∅ ∧ children s = []).

(** A settled activation, or one that is [idle]. *)
Definition calm (p : process) : Prop :=
  match p with
  | Listening r | Testing r => idle r
  | Over _ => True
  | Requesting _ => False
  end.

(** Where the activation of [createTesters] stands on a page that has only
    got [done] events of its own iframes: before its loop, with no iframe;
    in a round; or over. The last argument is the list of the loops
    waiting on the channel. *)
Inductive phase (env : environment) (f : unit → async unit)
  : store → process → list pid → Prop :=
| phase_before files s r R :
    at_container env files r → wraps f r R → NoDup files →
    iframes s = ∅ → children s = [] → runningFiles s = list_to_set files →
    phase env f s (Testing R) []
| phase_round width height file files s r R :
    in_round env width height files r → wraps f r R → NoDup (file :: files) →
    round_store file files s →
    phase env f s (Testing R) (if on_channel R then [0] else [])
| phase_after s p :
    calm p → length (children s) ≤ 1 → size (iframes s) ≤ 1 →
    phase env f s p [].

(** A page with one socket open, whose first activation is the run and
    whose other activations are [calm]. *)
Record own_page (env : environment) (f : unit → async unit) (pg : page) : Prop := {
  own_listeners : listeners pg = 1;
  own_pool : ∃ p0 others, pool pg = p0 :: others ∧ Forall calm others ∧
                          phase env f (mem pg) p0 (waiting pg);
}.

(** The inputs of a run in which only the iframes of the run speak, and
    only to say that they are done: a message is a [done] event that names
    one file, under the id of that file, from an iframe that the registry
    holds; the socket does not open again and nobody asks for a run. *)
Definition own_done (pg : page) (i : input) : bool :=
  match i with
  | Message (IframeDoneEvent [file] id) =>
      bool_decide (file = id) && bool_decide (is_Some (iframes (mem pg) !! id))
  | Message _ => false
  | Settle _ _ | Mount => true
  | Open _ | Request _ => false
  end.

(** Every input is such an input for the page it comes to. *)
Fixpoint own_rounds (env : environment) (pg : page) (inputs : list input) : bool :=
  match inputs with
  | [] => true
  | i :: inputs => own_done pg i && own_rounds env (step env pg i) inputs
  end.

(** What [on_open] does once [createTesters] is over. *)
Definition open_rest (x : unit) : async unit := await WTick;; mret x.

(** ** More to read in a run *)

(** The sizes handed to the UI's [setIframeViewport]. *)
Definition resizes (l : list effect) : list (number * number) :=
  omap (λ e, match e with
             | Called (UiSetIframeViewport width height) => Some (width, height)
             | _ => None
             end) l.

(** [rpcDone] is rejected, every other awaited call resolves. *)
Definition flush_fails : call → outcome :=
  λ c, match c with RpcDone => Rejected | _ => Resolved end.

(** * Properties *)

(** ** Equations of the resumption monad *)

Lemma stage_ind' {A} (P : stage A → Prop) :
  (∀ a, P (Returned a)) → P Thrown →
  (∀ w k, (∀ o s, P (k o s).2) → P (Suspended w k)) →
  ∀ r, P r.
Proof.
  intros HR HT HS. fix IH 1. intros [a| |w k]; [apply HR|apply HT|].
  apply HS. intros o s. apply IH.
Qed.

Lemma run_stage_bind {A B} o (r : stage A) (f : A → async B) s :
  run_from o (bind_stage r f s) = then_run (run_stage o r s) (λ a, run o (f a)).
Proof.
  revert s. induction r as [a| |w k IH] using stage_ind'; intros s; simpl.
  - unfold run. destruct (f a s) as [[s1 l1] r1]. simpl.
    by destruct (run_stage o r1 s1) as [[s2 l2] b].
  - done.
  - specialize (IH (settle o w) s).
    destruct (k (settle o w) s) as [[s1 l1] r1]. simpl in IH.
    specialize (IH s1). unfold run_from in IH.
    destruct (bind_stage r1 f s1) as [[s2 l2] r2].
    destruct (run_stage o r2 s2) as [[s3 l3] b].
    destruct (run_stage o r1 s1) as [[s4 l4] [a|]]; simpl in *.
    + destruct (run o (f a) s4) as [[s5 l5] c].
      rewrite <- !app_assoc. congruence.
    + rewrite <- !app_assoc. congruence.
Qed.

Lemma run_unfold {A} o (m : async A) s : run o m s = run_from o (m s).
Proof. done. Qed.

Lemma run_bind {A B} o (m : async A) (f : A → async B) s :
  run o (m ≫= f) s = then_run (run o m s) (λ a, run o (f a)).
Proof.
  rewrite (run_unfold o m), (run_unfold o (m ≫= f)).
  unfold mbind, async_bind, bind.
  destruct (m s) as [[s1 l1] r1].
  pose proof (run_stage_bind o r1 f s1) as H. unfold run_from in *.
  destruct (bind_stage r1 f s1) as [[s2 l2] r2].
  destruct (run_stage o r2 s2) as [[s3 l3] b].
  destruct (run_stage o r1 s1) as [[s4 l4] [a|]]; simpl in *.
  - destruct (run o (f a) s4) as [[s5 l5] c].
    rewrite <- !app_assoc. congruence.
  - rewrite <- !app_assoc. congruence.
Qed.

Lemma run_throw {A} o s : run o (@throw A) s = (s, [], None).
Proof. done. Qed.

Lemma run_stage_finally {A} o (r : stage A) (final : async unit) s :
  run_from o (finally_stage r final s) =
  let '(s1, l1, a) := run_stage o r s in
  let '(s2, l2, c) := run o final s1 in
  (s2, l1 ++ l2, match c with Some _ => a | None => None end).
Proof.
  revert s. induction r as [a| |w k IH] using stage_ind'; intros s; simpl.
  - rewrite <- run_unfold, run_bind.
    destruct (run o final s) as [[s1 l1] [[]|]]; simpl; by rewrite ?app_nil_r.
  - rewrite <- run_unfold, run_bind.
    destruct (run o final s) as [[s1 l1] [[]|]]; simpl; by rewrite ?app_nil_r.
  - specialize (IH (settle o w) s).
    destruct (k (settle o w) s) as [[s1 l1] r1]. simpl in IH.
    specialize (IH s1). unfold run_from in IH.
    destruct (finally_stage r1 final s1) as [[s2 l2] r2].
    destruct (run_stage o r2 s2) as [[s3 l3] b].
    destruct (run_stage o r1 s1) as [[s4 l4] a]; simpl in *.
    destruct (run o final s4) as [[s5 l5] c].
    rewrite <- !app_assoc. congruence.
Qed.

Lemma run_try_finally {A} o (body : async A) (final : async unit) s :
  run o (try_finally body final) s =
  let '(s1, l1, a) := run o body s in
  let '(s2, l2, c) := run o final s1 in
  (s2, l1 ++ l2, match c with Some _ => a | None => None end).
Proof.
  rewrite (run_unfold o body), (run_unfold o (try_finally body final)).
  unfold try_finally.
  destruct (body s) as [[s1 l1] r1].
  pose proof (run_stage_finally o r1 final s1) as H. unfold run_from in *.
  destruct (finally_stage r1 final s1) as [[s2 l2] r2].
  destruct (run_stage o r2 s2) as [[s3 l3] b].
  destruct (run_stage o r1 s1) as [[s4 l4] a]; simpl in *.
  destruct (run o final s4) as [[s5 l5] c].
  rewrite <- !app_assoc. congruence.
Qed.

Create Rewrite HintDb run.

Lemma run_ret {A} o (a : A) s : run o (mret a) s = (s, [], Some a).
Proof. done. Qed.

Lemma run_gets {A} o (f : store → A) s : run o (gets f) s = (s, [], Some (f s)).
Proof. done. Qed.

Lemma run_modify o f s : run o (modify f) s = (f s, [], Some tt).
Proof. done. Qed.

Lemma run_emit o e s : run o (emit e) s = (s, [e], Some tt).
Proof. done. Qed.

Lemma run_await o w s :
  run o (await w) s = (s, [], match settle o w with Resolved => Some tt | Rejected => None end).
Proof. unfold run, await; simpl. by destruct (settle o w). Qed.

#[local] Hint Rewrite @run_bind @run_ret @run_gets run_modify run_emit run_await
  @run_throw @run_try_finally : run.

Ltac run_simpl :=
  repeat (progress (autorewrite with run;
                    cbn [then_run app settle fst snd resolved];
                    rewrite ?app_nil_r)).

Lemma run_awaited {A} o (m : async A) s : run o (awaited m) s = run o m s.
Proof.
  unfold awaited. rewrite run_bind.
  destruct (run o m s) as [[s1 l1] [a|]]; [|done]. by run_simpl.
Qed.

Lemma run_awaited_call o c s :
  run o (awaited_call c) s = (s, [Called c], resolved (o c)).
Proof. unfold awaited_call. run_simpl. by destruct (o c). Qed.

Lemma run_debug env o args s :
  run o (debug env args) s = (s, if debug_flag env then [Debug args] else [], Some tt).
Proof. unfold debug. by destruct (debug_flag env). Qed.

#[local] Hint Rewrite @run_awaited run_awaited_call run_debug : run.

Lemma run_done env o testFinished s :
  run o (done env testFinished) s = (s, done_effects env o testFinished, done_result o).
Proof.
  unfold done, done_effects, done_result. run_simpl.
  destruct (o RpcDone); run_simpl;
    destruct (testFinished && ui_api env); run_simpl;
    try destruct (o FinishBrowserTests); done.
Qed.

#[local] Hint Rewrite run_done : run.

Lemma foldl_difference (r : gset string) (l : list string) :
  foldl (λ r f, r ∖ {[f]}) r l = r ∖ list_to_set l.
Proof.
  revert r. induction l as [|x l IH]; intros r; simpl.
  - set_solver.
  - rewrite IH. set_solver.
Qed.

Lemma size_zero (X : gset string) : size X = 0 ↔ X = ∅.
Proof. rewrite size_empty_iff. apply leibniz_equiv_iff. Qed.

Lemma set_runningFiles_ext f g s :
  f (runningFiles s) = g (runningFiles s) → set_runningFiles f s = set_runningFiles g s.
Proof. unfold set_runningFiles. congruence. Qed.

(** ** The listener, branch by branch *)

Lemma run_remove_registered o id s :
  run o (remove_registered id) s = (detach id s, [], Some tt).
Proof.
  unfold remove_registered, detach. run_simpl. by destruct (iframes s !! id).
Qed.

Lemma run_selection env o filenames s :
  run o (if ui_api env && bool_decide (1 < length filenames)
         then match last filenames with
              | Some file => emit (UiSetCurrentFileId (generateFileId env file))
              | None => mret ()
              end
         else mret ()) s = (s, selection env filenames, Some tt).
Proof.
  unfold selection. destruct (ui_api env && _); [|done]. by destruct (last filenames).
Qed.

#[local] Hint Rewrite run_remove_registered run_selection : run.

Lemma run_listener_done env o filenames id s :
  run o (listener env (IframeDoneEvent filenames id)) s =
  let s1 := set_runningFiles (λ r, r ∖ list_to_set filenames) s in
  if bool_decide (size (runningFiles s1) = 0) then
    (s1, debug_effects env (IframeDoneEvent filenames id) ++ selection env filenames
           ++ done_effects env o true, done_result o)
  else
    (set_iframes (delete id) (detach id s1),
     debug_effects env (IframeDoneEvent filenames id), Some tt).
Proof.
  unfold listener. run_simpl.
  rewrite (set_runningFiles_ext _ (λ r, r ∖ list_to_set filenames))
    by apply foldl_difference.
  cbn zeta. case_bool_decide; by run_simpl.
Qed.

Lemma run_listener_error env o error errorType files id s :
  run o (listener env (IframeErrorEvent error errorType files id)) s =
  let s1 := set_iframes (delete id) s in
  let l := debug_effects env (IframeErrorEvent error errorType files id)
           ++ [Called (OnUnhandledError error errorType)] in
  match o (OnUnhandledError error errorType) with
  | Rejected => (s1, l, None)
  | Resolved =>
      let s2 := set_runningFiles
                  (if bool_decide (id = ID_ALL) then λ _, ∅ else λ r, r ∖ {[id]}) s1 in
      if bool_decide (size (runningFiles s2) = 0)
      then (s2, l ++ done_effects env o true, done_result o)
      else (s2, l, Some tt)
  end.
Proof.
  unfold listener. run_simpl. cbn zeta.
  destruct (o (OnUnhandledError error errorType)); run_simpl; [|done].
  case_bool_decide; run_simpl; case_bool_decide; run_simpl;
    by rewrite <- ?app_assoc.
Qed.

Lemma run_listener_viewport env o width height id s :
  run o (listener env (IframeViewportEvent width height id)) s =
  let l := debug_effects env (IframeViewportEvent width height id) in
  match iframes s !! id with
  | None =>
      (s, l ++ [Posted (ViewportFail id (err_message (missing_iframe id)));
                Called (OnUnhandledError (missing_iframe id) "Teardown Error")],
       resolved (o (OnUnhandledError (missing_iframe id) "Teardown Error")))
  | Some iframe =>
      if ui_api env then
        match o (UiSetIframeViewport width height) with
        | Resolved =>
            (s, l ++ [Called (UiSetIframeViewport width height);
                      Posted (ViewportDone id)], Some tt)
        | Rejected => (s, l ++ [Called (UiSetIframeViewport width height)], None)
        end
      else (set_style env iframe width height s, l ++ [Posted (ViewportDone id)], Some tt)
  end.
Proof.
  unfold listener. run_simpl. cbn zeta.
  destruct (iframes s !! id) as [iframe|]; run_simpl; [|done].
  unfold setIframeViewport. destruct (ui_api env); run_simpl; [|done].
  destruct (o (UiSetIframeViewport width height)); by run_simpl.
Qed.

Lemma run_listener_default env o e s :
  event_type e ∉ ["done"; "error"; "viewport"] →
  run o (listener env e) s =
  let l := debug_effects env e ++ [Called (OnUnhandledError (unexpected_event e) "Unexpected Event")] in
  match o (OnUnhandledError (unexpected_event e) "Unexpected Event") with
  | Resolved => (s, l ++ done_effects env o false, done_result o)
  | Rejected => (s, l, None)
  end.
Proof.
  intros He. cbn zeta.
  destruct e as [| | |ok|type]; try (exfalso; apply He; set_solver);
    unfold listener; run_simpl.
  - fold (unexpected_event (IframeViewportChannelEvent ok)).
    destruct (o _); run_simpl; by rewrite <- ?app_assoc.
  - fold (unexpected_event (UnknownEvent type)).
    destruct (o _); run_simpl; by rewrite <- ?app_assoc.
Qed.

(** ** What the effects of a branch contain *)

Ltac observe :=
  unfold finalize_calls, reports, posts, flushes, ui_finishes,
    debug_effects, selection, done_effects;
  rewrite ?omap_app;
  repeat match goal with
         | |- context [if ?b then _ else _] => destruct b
         | |- context [match ?x with _ => _ end] => destruct x
         end;
  try reflexivity.

Lemma finalize_calls_app l1 l2 :
  finalize_calls (l1 ++ l2) = finalize_calls l1 ++ finalize_calls l2.
Proof. apply omap_app. Qed.

Lemma finalize_calls_debug env e : finalize_calls (debug_effects env e) = [].
Proof. observe. Qed.

Lemma finalize_calls_selection env filenames : finalize_calls (selection env filenames) = [].
Proof. observe. Qed.

Lemma finalize_calls_done env o b : finalize_calls (done_effects env o b) = [b].
Proof. observe. Qed.

Lemma reports_app l1 l2 : reports (l1 ++ l2) = reports l1 ++ reports l2.
Proof. apply omap_app. Qed.

Lemma reports_debug env e : reports (debug_effects env e) = [].
Proof. observe. Qed.

Lemma reports_done env o b : reports (done_effects env o b) = [].
Proof. observe. Qed.

Lemma posts_app l1 l2 : posts (l1 ++ l2) = posts l1 ++ posts l2.
Proof. apply omap_app. Qed.

Lemma posts_debug env e : posts (debug_effects env e) = [].
Proof. observe. Qed.

Lemma flushes_app l1 l2 : flushes (l1 ++ l2) = flushes l1 ++ flushes l2.
Proof. apply omap_app. Qed.

Lemma flushes_debug env e : flushes (debug_effects env e) = [].
Proof. observe. Qed.

Lemma flushes_done env o b :
  flushes (done_effects env o b) =
  RpcDone :: match o RpcDone with Resolved => [FinishBrowserTests] | Rejected => [] end.
Proof. observe. Qed.

Lemma ui_finishes_app l1 l2 : ui_finishes (l1 ++ l2) = ui_finishes l1 + ui_finishes l2.
Proof. unfold ui_finishes. by rewrite omap_app, length_app. Qed.

Lemma ui_finishes_debug env e : ui_finishes (debug_effects env e) = 0.
Proof. observe. Qed.

Lemma ui_finishes_done env o b :
  ui_finishes (done_effects env o b) = if b && ui_api env then 1 else 0.
Proof. observe. Qed.

Create Rewrite HintDb observe.
#[local] Hint Rewrite finalize_calls_app finalize_calls_debug finalize_calls_selection
  finalize_calls_done reports_app reports_debug reports_done posts_app posts_debug
  flushes_app flushes_debug flushes_done ui_finishes_app ui_finishes_debug
  ui_finishes_done : observe.

(** ** The [done] branch *)

(** C4, as the listener has it: a [done] event removes each of its filenames
    from the running files, a filename that is not running changing nothing,
    and [done] is entered once by every [done] event after which no file is
    running, whether or not a file was running before it, and not at all
    otherwise. On the running files a and b, [done] for a leaves b and does
    not finalize; a further [done] for b leaves nothing and finalizes once;
    and so does the same event when it comes again. *)
Theorem done_event_marks_done env o filenames id s :
  let r := run o (listener env (IframeDoneEvent filenames id)) s in
  runningFiles (store_after r) = runningFiles s ∖ list_to_set filenames ∧
  (∀ x, x ∈ runningFiles (store_after r) ↔ x ∈ runningFiles s ∧ x ∉ filenames) ∧
  finalize_calls (effects_of r) =
    (if bool_decide (runningFiles (store_after r) = ∅) then [true] else []) ∧
  let s_ab := set_runningFiles (λ _, {["a"; "b"]}) s in
  let r1 := run o (listener env (IframeDoneEvent ["a"] id)) s_ab in
  let r2 := run o (listener env (IframeDoneEvent ["b"] id)) (store_after r1) in
  let r3 := run o (listener env (IframeDoneEvent ["b"] id)) (store_after r2) in
  runningFiles (store_after r1) = {["b"]} ∧ finalize_calls (effects_of r1) = [] ∧
  runningFiles (store_after r2) = ∅ ∧ finalize_calls (effects_of r2) = [true] ∧
  runningFiles (store_after r3) = ∅ ∧ finalize_calls (effects_of r3) = [true].
Proof.
  assert (Hgen : ∀ filenames s,
    let r := run o (listener env (IframeDoneEvent filenames id)) s in
    runningFiles (store_after r) = runningFiles s ∖ list_to_set filenames ∧
    finalize_calls (effects_of r) =
      (if bool_decide (runningFiles (store_after r) = ∅) then [true] else [])).
  { clear. intros filenames s. cbn zeta. rewrite run_listener_done. cbn zeta.
    cbn [runningFiles set_runningFiles].
    rewrite (bool_decide_ext _ (runningFiles s ∖ list_to_set filenames = ∅))
      by apply size_zero.
    case_bool_decide as Hempty; unfold store_after, effects_of; cbn [fst snd];
      cbn [runningFiles set_runningFiles set_iframes detach].
    - rewrite bool_decide_true by done. split; [done|].
      by autorewrite with observe.
    - assert (Hd : ∀ t, runningFiles (detach id t) = runningFiles t).
      { intros t. unfold detach. by destruct (iframes t !! id). }
      rewrite Hd. cbn [runningFiles]. rewrite bool_decide_false by done.
      split; [done|]. by autorewrite with observe. }
  cbn zeta in Hgen. cbn zeta. destruct (Hgen filenames s) as [Hset Hfin].
  split; [done|]. split; [|split; [done|]].
  - intros x. rewrite Hset. rewrite elem_of_difference, elem_of_list_to_set. done.
  - set (s1 := store_after (run o (listener env (IframeDoneEvent ["a"] id))
                  (set_runningFiles (λ _, {["a"; "b"]}) s))).
    set (s2 := store_after (run o (listener env (IframeDoneEvent ["b"] id)) s1)).
    destruct (Hgen ["a"] (set_runningFiles (λ _, {["a"; "b"]}) s)) as [Ha Hfa].
    fold s1 in Ha, Hfa. cbn [runningFiles set_runningFiles] in Ha.
    assert (Hb1 : runningFiles s1 = {["b"]}).
    { rewrite Ha. apply set_eq. intros x. set_solver. }
    destruct (Hgen ["b"] s1) as [Hb Hfb]. fold s2 in Hb, Hfb.
    assert (Hb2 : runningFiles s2 = ∅) by (rewrite Hb, Hb1; set_solver).
    destruct (Hgen ["b"] s2) as [Hc Hfc].
    set (s3 := store_after (run o (listener env (IframeDoneEvent ["b"] id)) s2)) in *.
    assert (Hb3 : runningFiles s3 = ∅) by (rewrite Hc, Hb2; set_solver).
    rewrite Hfa, Hfb, Hfc, Hb1, Hb2, Hb3.
    rewrite bool_decide_false, bool_decide_true; [done..|].
    intros Heq. assert ("b" ∈ (∅ : gset string)) by (rewrite <- Heq; set_solver).
    set_solver.
Qed.

(** C4 as it is worded fails: [done] is not entered exactly once, when the
    running files become empty. On a headless page with the files a and b,
    the [done] event of b ends the run and finalizes it; the same event,
    coming once more when no file is running, finalizes the run again. *)
Lemma done_event_finalizes_again :
  let pg := steps headless initial_page
    [Open ["a"; "b"]; Settle 0 Resolved; Settle 0 Resolved;
     Message (IframeDoneEvent ["a"] "a"); Settle 0 Resolved;
     Message (IframeDoneEvent ["b"] "b")] in
  let pg' := step headless pg (Message (IframeDoneEvent ["b"] "b")) in
  (runningFiles (mem pg) = ∅ ∧ finalize_calls (trace pg) = [true]) ∧
  (runningFiles (mem pg') = ∅ ∧ finalize_calls (trace pg') = [true; true]).
Proof. vm_compute. done. Qed.

Lemma runningFiles_detach id s : runningFiles (detach id s) = runningFiles s.
Proof. unfold detach. by destruct (iframes s !! id). Qed.

Lemma iframes_detach id s : iframes (detach id s) = iframes s.
Proof. unfold detach. by destruct (iframes s !! id). Qed.

Lemma done_event_store env o filenames id s :
  let s' := store_after (run o (listener env (IframeDoneEvent filenames id)) s) in
  runningFiles s' = runningFiles s ∖ list_to_set filenames ∧
  iframes s' = if bool_decide (runningFiles s' = ∅) then iframes s
               else delete id (iframes s).
Proof.
  cbn zeta. rewrite run_listener_done. cbn zeta.
  cbn [runningFiles set_runningFiles].
  rewrite (bool_decide_ext _ (runningFiles s ∖ list_to_set filenames = ∅))
    by apply size_zero.
  case_bool_decide as Hempty; unfold store_after; cbn [fst snd].
  - cbn [runningFiles iframes set_runningFiles]. by rewrite bool_decide_true.
  - cbn [runningFiles iframes set_iframes]. rewrite runningFiles_detach, iframes_detach.
    cbn [runningFiles iframes set_runningFiles]. by rewrite bool_decide_false.
Qed.

(** C3, as the listener has it: a [done] event takes out of the registry
    the handle kept under the event's own id, whichever it is, when files
    are still running, and none when no file is; the handle of any other
    identifier stays. So the handle under [ID_ALL] stays on every [done]
    event of another id, and on every [done] event that ends the run. *)
Theorem done_event_removes_only_its_handle env o filenames id k s :
  k ≠ id →
  let s' := store_after (run o (listener env (IframeDoneEvent filenames id)) s) in
  iframes s' !! k = iframes s !! k ∧
  iframes s' !! id = (if bool_decide (runningFiles s' = ∅) then iframes s !! id else None).
Proof.
  intros Hk. cbn zeta.
  destruct (done_event_store env o filenames id s) as [_ Hreg]. cbn zeta in Hreg.
  rewrite Hreg. case_bool_decide; [done|].
  by rewrite lookup_delete_ne, lookup_delete_eq.
Qed.

Lemma done_event_removes_only_its_handle_witness :
  ID_ALL ≠ "a" ∧
  let s := store_with ["a"; "b"] [(ID_ALL, 0); ("a", 1)] in
  let s' := store_after (run all_resolve (listener headless (IframeDoneEvent ["a"] "a")) s) in
  iframes s' !! ID_ALL = iframes s !! ID_ALL ∧
  iframes s' !! "a" = (if bool_decide (runningFiles s' = ∅) then iframes s !! "a" else None).
Proof.
  split; [done|].
  apply (done_event_removes_only_its_handle headless all_resolve ["a"] "a" ID_ALL). done.
Defined.

(** C3 as it is worded fails: in shared mode, a [done] event of the shared
    iframe that names only one of the two running files takes the handle
    under [ID_ALL] out of the registry, and the iframe off the page. *)
Lemma done_event_removes_shared_handle :
  let before := steps shared initial_page
                  [Open ["a"; "b"]; Settle 0 Resolved; Settle 0 Resolved; Settle 0 Resolved] in
  let after := step shared before (Message (IframeDoneEvent ["a"] ID_ALL)) in
  (iframes (mem before) !! ID_ALL = Some 0 ∧ children (mem before) = [0] ∧
   runningFiles (mem before) = {["a"; "b"]}) ∧
  (runningFiles (mem after) = {["b"]} ∧ iframes (mem after) !! ID_ALL = None ∧
   children (mem after) = []).
Proof. vm_compute. done. Qed.

(** ** The [error] branch *)

Lemma error_event_store env o error errorType files id s :
  let s' := store_after (run o (listener env (IframeErrorEvent error errorType files id)) s) in
  iframes s' = delete id (iframes s) ∧
  runningFiles s' =
    match o (OnUnhandledError error errorType) with
    | Resolved => if bool_decide (id = ID_ALL) then ∅ else runningFiles s ∖ {[id]}
    | Rejected => runningFiles s
    end.
Proof.
  cbn zeta. rewrite run_listener_error. cbn zeta.
  destruct (o (OnUnhandledError error errorType)); [|done].
  repeat case_bool_decide; done.
Qed.

Lemma error_event_effects env o error errorType files id s :
  o (OnUnhandledError error errorType) = Resolved →
  let r := run o (listener env (IframeErrorEvent error errorType files id)) s in
  reports (effects_of r) = [(error, errorType)] ∧
  finalize_calls (effects_of r) =
    if bool_decide (runningFiles (store_after r) = ∅) then [true] else [].
Proof.
  intros Ho. cbn zeta. rewrite run_listener_error. cbn zeta. rewrite Ho.
  match goal with |- context [bool_decide (size ?X = 0)] =>
    rewrite (bool_decide_ext (size X = 0) (X = ∅)) by apply size_zero end.
  case_bool_decide as Hempty; unfold store_after, effects_of; cbn [fst snd].
  - rewrite bool_decide_true by done. by autorewrite with observe.
  - rewrite bool_decide_false by done. by autorewrite with observe.
Qed.

(** C5, as the listener has it: an [error] event is reported once to the
    host, whatever its id. When that report resolves, an [error] event of
    [ID_ALL] empties the running files whatever they are and enters [done];
    an [error] event of another id removes that id alone from the running
    files, and enters [done] only if no file is running any more. When the
    report is rejected, the handler ends there: the running files are as
    they were and [done] is not entered. *)
Theorem error_event_ends_run env o error errorType files id s :
  let r := run o (listener env (IframeErrorEvent error errorType files id)) s in
  reports (effects_of r) = [(error, errorType)] ∧
  match o (OnUnhandledError error errorType) with
  | Resolved =>
      runningFiles (store_after r) =
        (if bool_decide (id = ID_ALL) then ∅ else runningFiles s ∖ {[id]}) ∧
      finalize_calls (effects_of r) =
        (if bool_decide (id = ID_ALL) then [true]
         else if bool_decide (runningFiles s ∖ {[id]} = ∅) then [true] else [])
  | Rejected =>
      runningFiles (store_after r) = runningFiles s ∧
      finalize_calls (effects_of r) = [] ∧
      result_of r = None
  end.
Proof.
  cbn zeta.
  destruct (error_event_store env o error errorType files id s) as [_ Hrun].
  cbn zeta in Hrun.
  destruct (o (OnUnhandledError error errorType)) eqn:Ho.
  - destruct (error_event_effects env o error errorType files id s Ho) as [Hrep Hfin].
    cbn zeta in *. rewrite Hfin, Hrep, Hrun.
    split; [done|]. split; [done|].
    destruct (bool_decide (id = ID_ALL)); [|done]. by rewrite bool_decide_true.
  - rewrite run_listener_error. cbn zeta. rewrite Ho.
    unfold result_of, effects_of, store_after. cbn [fst snd].
    by autorewrite with observe.
Qed.

(** C5 as it is worded fails: in shared mode, with the files x, y and z
    running, an [error] event of [ID_ALL] whose report to the host is
    rejected is reported, but leaves the three files running and does not
    finalize. *)
Lemma error_event_all_not_cleared :
  let error := {| err_name := "Error"; err_message := "boom" |} in
  let s := store_with ["x"; "y"; "z"] [(ID_ALL, 0)] in
  let r := run all_reject
             (listener shared (IframeErrorEvent error "Unhandled Error" [] ID_ALL)) s in
  runningFiles (store_after r) = {["x"; "y"; "z"]} ∧
  reports (effects_of r) = [(error, "Unhandled Error")] ∧
  finalize_calls (effects_of r) = [].
Proof. vm_compute. done. Qed.

(** C10: an [error] event of an id other than [ID_ALL] takes nothing out of
    the registry but the entry of that id, and nothing out of the running
    files but that id, however the report to the host settles. *)
Theorem error_event_frame env o error errorType files id s :
  id ≠ ID_ALL →
  let s' := store_after (run o (listener env (IframeErrorEvent error errorType files id)) s) in
  (∀ k, k ≠ id → iframes s' !! k = iframes s !! k) ∧
  (∀ x, x ≠ id → x ∈ runningFiles s' ↔ x ∈ runningFiles s) ∧
  iframes s' ⊆ iframes s ∧ runningFiles s' ⊆ runningFiles s.
Proof.
  intros Hid. cbn zeta.
  destruct (error_event_store env o error errorType files id s) as [Hreg Hrun].
  cbn zeta in *. rewrite Hreg, Hrun, bool_decide_false by done.
  split; [intros k Hk; by rewrite lookup_delete_ne|].
  split; [|split].
  - intros x Hx. destruct (o _); set_solver.
  - apply delete_subseteq.
  - destruct (o _); set_solver.
Qed.

Lemma error_event_frame_witness :
  "a" ≠ ID_ALL ∧
  let error := {| err_name := "Error"; err_message := "boom" |} in
  let s := store_with ["a"; "b"] [("a", 0)] in
  let s' := store_after (run all_reject
              (listener headless (IframeErrorEvent error "Unhandled Error" ["a"] "a")) s) in
  (∀ k, k ≠ "a" → iframes s' !! k = iframes s !! k) ∧
  (∀ x, x ≠ "a" → x ∈ runningFiles s' ↔ x ∈ runningFiles s) ∧
  iframes s' ⊆ iframes s ∧ runningFiles s' ⊆ runningFiles s.
Proof.
  split; [done|].
  apply (error_event_frame headless all_reject
           {| err_name := "Error"; err_message := "boom" |} "Unhandled Error" ["a"] "a").
  done.
Defined.

(** ** [done] *)

(** C6: with a UI, a call of [done] that is to tell the UI tells it once,
    and last of all, whether [rpcDone] and [finishBrowserTests] resolve or
    are rejected. *)
Theorem done_releases_ui env o s :
  ui_api env = true →
  let r := run o (done env true) s in
  ui_finishes (effects_of r) = 1 ∧
  last (effects_of r) = Some UiRunTestsFinish ∧
  store_after r = s.
Proof.
  intros Hui. cbn zeta. rewrite run_done. unfold effects_of, store_after. cbn [fst snd].
  rewrite ui_finishes_done. unfold done_effects. rewrite Hui. cbn [andb].
  split; [done|]. split; [|done].
  by destruct (o RpcDone).
Qed.

Lemma done_releases_ui_witness :
  ui_api with_ui = true ∧
  let r := run all_reject (done with_ui true) initial_store in
  ui_finishes (effects_of r) = 1 ∧
  last (effects_of r) = Some UiRunTestsFinish ∧
  store_after r = initial_store.
Proof.
  split; [reflexivity|].
  apply (done_releases_ui with_ui all_reject initial_store). reflexivity.
Defined.

(** ** The [default] branch *)

(** C7, as the listener has it: an event whose type is none of [done],
    [error] and [viewport] is reported once to the host as an Unexpected
    Event; the UI is never told that the run has finished, and the store is
    left as it was. When that report resolves, [done] is entered once, with
    [false]: [rpcDone] is awaited and, when it resolves, the host is told
    that the browser tests have finished. When the report is rejected,
    [done] is not entered and nothing is flushed; when [rpcDone] is
    rejected, the host is not told. *)
Theorem unexpected_event_finalizes env o e s :
  event_type e ∉ ["done"; "error"; "viewport"] →
  let r := run o (listener env e) s in
  reports (effects_of r) = [(unexpected_event e, "Unexpected Event")] ∧
  ui_finishes (effects_of r) = 0 ∧
  store_after r = s ∧
  match o (OnUnhandledError (unexpected_event e) "Unexpected Event") with
  | Resolved =>
      finalize_calls (effects_of r) = [false] ∧
      flushes (effects_of r) =
        RpcDone :: match o RpcDone with
                   | Resolved => [FinishBrowserTests]
                   | Rejected => []
                   end
  | Rejected =>
      finalize_calls (effects_of r) = [] ∧ flushes (effects_of r) = [] ∧
      result_of r = None
  end.
Proof.
  intros He. cbn zeta.
  rewrite run_listener_default by done. cbn zeta.
  destruct (o (OnUnhandledError (unexpected_event e) "Unexpected Event"));
    unfold effects_of, store_after, result_of; cbn [fst snd];
    autorewrite with observe; done.
Qed.

Lemma unexpected_event_finalizes_witness :
  let e := UnknownEvent "resize" in
  (event_type e ∉ ["done"; "error"; "viewport"]) ∧
  let s := store_with ["a"] [("a", 0)] in
  let r := run all_resolve (listener with_ui e) s in
  reports (effects_of r) = [(unexpected_event e, "Unexpected Event")] ∧
  ui_finishes (effects_of r) = 0 ∧
  store_after r = s ∧
  finalize_calls (effects_of r) = [false] ∧
  flushes (effects_of r) = [RpcDone; FinishBrowserTests].
Proof.
  assert (He : event_type (UnknownEvent "resize") ∉ ["done"; "error"; "viewport"]).
  { vm_compute. intros H. repeat (inversion H as [|? ? ? H']; clear H; rename H' into H). }
  split; [exact He|].
  exact (unexpected_event_finalizes with_ui all_resolve (UnknownEvent "resize")
           (store_with ["a"] [("a", 0)]) He).
Defined.

(** C7 as it is worded fails: with the report to the host rejected, an
    event of the unknown type [resize] is reported but [done] is not
    entered and nothing is flushed; with [rpcDone] alone rejected, [done]
    is entered but the host is not told that the browser tests have
    finished. *)
Lemma unexpected_event_not_finalized :
  let e := UnknownEvent "resize" in
  let s := store_with ["a"] [("a", 0)] in
  let r := run all_reject (listener with_ui e) s in
  let r' := run flush_fails (listener with_ui e) s in
  (reports (effects_of r) = [(unexpected_event e, "Unexpected Event")] ∧
   finalize_calls (effects_of r) = [] ∧ flushes (effects_of r) = []) ∧
  (finalize_calls (effects_of r') = [false] ∧ flushes (effects_of r') = [RpcDone]).
Proof. vm_compute. done. Qed.

(** ** The [viewport] branch *)

Lemma resizes_app l1 l2 : resizes (l1 ++ l2) = resizes l1 ++ resizes l2.
Proof. apply omap_app. Qed.

Lemma resizes_debug env e : resizes (debug_effects env e) = [].
Proof. unfold debug_effects. by destruct (debug_flag env). Qed.

(** C8, as the listener has it: a [viewport] event never enters [done] and
    changes neither the registry, nor the running files, nor which iframes
    are on the page. When its id has no handle in the registry, it posts
    [viewport:fail] once, reports one error to the host and leaves the store
    as it was. When its id has a handle, nothing is reported. With a UI, the
    size is handed to the UI's [setIframeViewport], once, the store is left
    as it was, and [viewport:done] is posted once when that call resolves
    and not at all when it is rejected. Without a UI, [viewport:done] is
    posted once, and the width and the height of that iframe, and of no
    other, are each set to the value of the event if the page takes it as a
    length, and left as they were if not. *)
Theorem viewport_event_acknowledged env o width height id s :
  let r := run o (listener env (IframeViewportEvent width height id)) s in
  let s' := store_after r in
  finalize_calls (effects_of r) = [] ∧
  iframes s' = iframes s ∧ runningFiles s' = runningFiles s ∧ children s' = children s ∧
  next_handle s' = next_handle s ∧ promiseTesters s' = promiseTesters s ∧
  match iframes s !! id with
  | None =>
      posts (effects_of r) = [ViewportFail id ("Cannot find iframe with id " +:+ id)] ∧
      reports (effects_of r) = [(missing_iframe id, "Teardown Error")] ∧
      resizes (effects_of r) = [] ∧
      s' = s
  | Some iframe =>
      reports (effects_of r) = [] ∧
      if ui_api env then
        resizes (effects_of r) = [(width, height)] ∧
        s' = s ∧
        posts (effects_of r) =
          match o (UiSetIframeViewport width height) with
          | Resolved => [ViewportDone id]
          | Rejected => []
          end
      else
        resizes (effects_of r) = [] ∧
        posts (effects_of r) = [ViewportDone id] ∧
        document s' !! iframe =
          (λ el, {| src_file := src_file el;
                    style_width := if css_length env width then Some width
                                   else style_width el;
                    style_height := if css_length env height then Some height
                                    else style_height el |}) <$> document s !! iframe ∧
        (∀ h, h ≠ iframe → document s' !! h = document s !! h)
  end.
Proof.
  cbn zeta. rewrite run_listener_viewport. cbn zeta.
  destruct (iframes s !! id) as [iframe|].
  - destruct (ui_api env).
    + destruct (o (UiSetIframeViewport width height));
        unfold effects_of, store_after; cbn [fst snd];
        rewrite ?resizes_app, ?resizes_debug;
        autorewrite with observe; done.
    + unfold effects_of, store_after; cbn [fst snd].
      rewrite ?resizes_app, ?resizes_debug. autorewrite with observe.
      cbn [iframes runningFiles children document next_handle promiseTesters set_style].
      repeat split; try done.
      * apply lookup_alter_eq.
      * intros h Hh. by apply lookup_alter_ne.
  - unfold effects_of, store_after; cbn [fst snd].
    rewrite ?resizes_app, ?resizes_debug. by autorewrite with observe.
Qed.

(** C8 as it is worded fails: with a UI whose [setIframeViewport] is
    rejected, a [viewport] event of a registered id is not acknowledged;
    and without a UI, a [viewport] event with the width -5 is acknowledged
    with [viewport:done] though the iframe keeps the width it had, 800. *)
Lemma viewport_event_not_applied :
  let s := store_with ["a"] [("a", 0)] in
  let r := run all_reject
             (listener with_ui (IframeViewportEvent (integer 800) (integer 600) "a")) s in
  let r1 := run all_resolve
              (listener headless (IframeViewportEvent (integer 800) (integer 600) "a")) s in
  let r2 := run all_resolve
              (listener headless (IframeViewportEvent (integer (-5)) (integer 600) "a"))
              (store_after r1) in
  (iframes s !! "a" = Some 0 ∧ posts (effects_of r) = []) ∧
  (posts (effects_of r2) = [ViewportDone "a"] ∧
   style_width <$> document (store_after r2) !! 0 = Some (Some (integer 800))).
Proof. vm_compute. done. Qed.

(** ** The registry *)

Lemma run_createIframe o file s :
  run o (createIframe file) s =
  (set_children (λ c, c ++ [next_handle s])
     (set_iframes <[file := next_handle s]>
        (create_element file
           (if bool_decide (is_Some (iframes s !! file))
            then set_iframes (delete file) (detach file s) else s))),
   [Appended file (next_handle s)], Some (next_handle s)).
Proof.
  unfold createIframe. run_simpl.
  case_bool_decide; run_simpl; [|done].
  unfold detach. by destruct (iframes s !! file).
Qed.

Lemma createIframe_store o file s :
  let s' := store_after (run o (createIframe file) s) in
  iframes s' = <[file := next_handle s]> (iframes s) ∧
  children s' = match iframes s !! file with
                | Some old => filter (λ x, x ≠ old) (children s)
                | None => children s
                end ++ [next_handle s] ∧
  next_handle s' = S (next_handle s) ∧
  runningFiles s' = runningFiles s.
Proof.
  cbn zeta. rewrite run_createIframe. unfold store_after. cbn [fst snd].
  unfold detach. destruct (iframes s !! file) as [old|] eqn:Hold.
  - rewrite bool_decide_true by eauto. cbn. by rewrite insert_delete_eq.
  - rewrite bool_decide_false by (intros [? ?]; done). done.
Qed.

Lemma registry_ok_initial : registry_ok initial_store.
Proof.
  split; cbn.
  - constructor.
  - intros h Hh. by apply elem_of_nil in Hh.
  - intros id h Hh. by rewrite lookup_empty in Hh.
  - intros id1 id2 h Hh. by rewrite lookup_empty in Hh.
Qed.

Lemma registry_ok_create file s :
  registry_ok s → registry_ok (apply_op s (OpCreate file)).
Proof.
  intros [Hnd Hch Hreg Hinj]. unfold apply_op.
  destruct (createIframe_store all_resolve file s) as (Hi & Hc & Hn & _).
  cbn zeta in *. split; rewrite ?Hi, ?Hc, ?Hn.
  - apply NoDup_app. split; [|split].
    + destruct (iframes s !! file); [by apply NoDup_filter|done].
    + intros h Hh Hnew. apply list_elem_of_singleton in Hnew. subst h.
      assert (next_handle s ∈ children s) as Hin.
      { destruct (iframes s !! file); [|done].
        by apply list_elem_of_filter in Hh as [_ ?]. }
      apply Hch in Hin. lia.
    + apply NoDup_singleton.
  - intros h Hh. apply elem_of_app in Hh as [Hh|Hh].
    + assert (h ∈ children s) as Hin.
      { destruct (iframes s !! file); [|done].
        by apply list_elem_of_filter in Hh as [_ ?]. }
      apply Hch in Hin. lia.
    + apply list_elem_of_singleton in Hh. lia.
  - intros id h. rewrite lookup_insert. case_decide.
    + intros [= <-]. lia.
    + intros Hh. apply Hreg in Hh. lia.
  - intros id1 id2 h. rewrite !lookup_insert.
    repeat case_decide; subst; try done.
    + intros [= <-] Hh. apply Hreg in Hh. lia.
    + intros Hh [= <-]. apply Hreg in Hh. lia.
    + apply Hinj.
Qed.

Lemma apply_remove s id :
  apply_op s (OpRemove id) = set_iframes (delete id) (detach id s).
Proof. unfold apply_op. by run_simpl. Qed.

Lemma apply_remove_all s :
  apply_op s OpRemoveAll =
  set_iframes (λ _, ∅) (set_children (filter (λ h, h ∉ (map_to_list (iframes s)).*2)) s).
Proof. unfold apply_op, remove_all_iframes. by run_simpl. Qed.

Lemma registry_ok_children f s :
  (∀ l, NoDup l → NoDup (f l)) → (∀ l h, h ∈ f l → h ∈ l) →
  registry_ok s → registry_ok (set_children f s).
Proof.
  intros Hf Hsub [Hnd Hch Hreg Hinj]. split; cbn; eauto.
Qed.

Lemma registry_ok_iframes f s :
  (∀ m, f m ⊆ m) → registry_ok s → registry_ok (set_iframes f s).
Proof.
  intros Hf [Hnd Hch Hreg Hinj].
  assert (Hsub : ∀ id h, f (iframes s) !! id = Some h → iframes s !! id = Some h).
  { intros id h Hh. eapply lookup_weaken; [exact Hh|apply Hf]. }
  split; cbn; eauto.
Qed.

Lemma registry_ok_detach id s : registry_ok s → registry_ok (detach id s).
Proof.
  intros Hok. unfold detach. destruct (iframes s !! id); [|done].
  apply registry_ok_children; [| |done].
  - intros l. apply NoDup_filter.
  - intros l h Hh. by apply list_elem_of_filter in Hh as [_ ?].
Qed.

Lemma registry_ok_apply s op : registry_ok s → registry_ok (apply_op s op).
Proof.
  intros Hok. destruct op as [file|id|id| |].
  - by apply registry_ok_create.
  - rewrite apply_remove. apply registry_ok_iframes; [|by apply registry_ok_detach].
    intros m. apply delete_subseteq.
  - apply registry_ok_iframes; [|done]. intros m. apply delete_subseteq.
  - apply registry_ok_children; [| |done].
    + intros; constructor.
    + intros l h Hh. by apply elem_of_nil in Hh.
  - rewrite apply_remove_all. apply registry_ok_iframes.
    + intros m. apply map_empty_subseteq.
    + apply registry_ok_children; [| |done].
      * intros l. apply NoDup_filter.
      * intros l h Hh. by apply list_elem_of_filter in Hh as [_ ?].
Qed.

Lemma registry_ok_reachable ops : registry_ok (foldl apply_op initial_store ops).
Proof.
  induction ops as [|op ops IH] using rev_ind.
  - apply registry_ok_initial.
  - rewrite foldl_app. by apply registry_ok_apply.
Qed.

Lemma filter_none {A} (P : A → Prop) `{!∀ x, Decision (P x)} (l : list A) :
  (∀ x, x ∈ l → ¬ P x) → filter P l = [].
Proof.
  induction l as [|x l IH]; intros Hl; [done|].
  rewrite filter_cons, decide_False by (apply Hl; left).
  apply IH. intros y Hy. apply Hl. by right.
Qed.

Lemma filter_one (o : option Handle) (l : list Handle) :
  NoDup l → length (filter (λ h, o = Some h) l) ≤ 1.
Proof.
  induction 1 as [|h l Hh Hnd IH]; [cbn; lia|].
  rewrite filter_cons. case_decide as Ho; [|done].
  subst o. cbn. rewrite filter_none; [cbn; lia|].
  intros x Hx [= ->]. done.
Qed.

Lemma live_handles_one s id : registry_ok s → length (live_handles s id) ≤ 1.
Proof. intros [Hnd _ _ _]. by apply filter_one. Qed.

(** C9: on every store the module can reach, [createIframe] returns a new
    handle and leaves it, on the page, under [file] in the registry; the
    handle the registry held under [file] before is off the page and under
    no identifier; the other identifiers keep their handle. After it, as
    after any other operation on the registry, there is at most one iframe
    on the page under each identifier. *)
Theorem createIframe_replaces ops o file :
  let s := foldl apply_op initial_store ops in
  let r := run o (createIframe file) s in
  let s' := store_after r in
  (result_of r = Some (next_handle s) ∧
   iframes s' !! file = Some (next_handle s) ∧
   live_handles s' file = [next_handle s]) ∧
  (∀ old, iframes s !! file = Some old →
     old ≠ next_handle s ∧ (old ∉ children s') ∧ ∀ id, iframes s' !! id ≠ Some old) ∧
  (∀ id, id ≠ file → iframes s' !! id = iframes s !! id) ∧
  (∀ id, length (live_handles s' id) ≤ 1) ∧
  (∀ op id, length (live_handles (apply_op s op) id) ≤ 1).
Proof.
  cbn zeta. pose proof (registry_ok_reachable ops) as Hok.
  revert Hok. generalize (foldl apply_op initial_store ops). intros s Hok.
  destruct (createIframe_store o file s) as (Hi & Hc & Hn & _). cbn zeta in *.
  assert (Hok' : registry_ok (store_after (run o (createIframe file) s))).
  { pose proof (registry_ok_create file s Hok) as H. unfold apply_op in H.
    rewrite run_createIframe in H. by rewrite run_createIframe. }
  destruct Hok as [Hnd Hch Hreg Hinj].
  assert (Hfresh : next_handle s ∉ children s).
  { intros Hin. apply Hch in Hin. lia. }
  split; [split; [|split]|split; [|split; [|split]]].
  - by rewrite run_createIframe.
  - by rewrite Hi, lookup_insert_eq.
  - unfold live_handles. rewrite Hi, Hc, lookup_insert_eq, filter_app.
    rewrite filter_none.
    + rewrite filter_cons, decide_True by done. done.
    + intros x Hx [= <-]. apply Hfresh.
      destruct (iframes s !! file); [|done].
      by apply list_elem_of_filter in Hx as [_ ?].
  - intros old Hold. pose proof (Hreg _ _ Hold) as Hlt.
    split; [lia|]. split.
    + rewrite Hc, Hold. intros Hin. apply elem_of_app in Hin as [Hin|Hin].
      * by apply list_elem_of_filter in Hin as [? _].
      * apply list_elem_of_singleton in Hin. lia.
    + intros id. rewrite Hi, lookup_insert. case_decide.
      * intros [= ?]. lia.
      * intros Hid. by pose proof (Hinj _ _ _ Hold Hid).
  - intros id Hid. by rewrite Hi, lookup_insert_ne.
  - intros id. by apply live_handles_one.
  - intros op id. apply live_handles_one, registry_ok_apply. by split.
Qed.

(** ** The isolated loop *)

Lemma createIframe_eq file s :
  createIframe file s =
  (set_children (λ c, c ++ [next_handle s])
     (set_iframes <[file := next_handle s]>
        (create_element file
           (if bool_decide (is_Some (iframes s !! file))
            then set_iframes (delete file) (detach file s) else s))),
   [Appended file (next_handle s)], Returned (next_handle s)).
Proof.
  unfold createIframe, mbind, async_bind, bind, gets. cbn beta iota zeta.
  cbn [bind_stage]. unfold detach.
  destruct (bool_decide (is_Some (iframes s !! file))); cbn; [|done].
  unfold remove_registered, iframe_remove, mbind, async_bind, bind, gets, modify.
  by destruct (iframes s !! file).
Qed.

Ltac unfold_async :=
  unfold awaited, awaited_call, mbind, async_bind, bind, emit, await, modify, gets,
    mret, async_ret, ret, throw.

Lemma isolated_loop_cons env width height file files s :
  ∃ s1 r, isolated_loop env width height (file :: files) s
          = (s1, Appended file (next_handle s) ::
                 (if ui_api env then [Called (UiSetIframeViewport width height)] else []),
             r) ∧
          at_viewport env width height files r.
Proof.
  cbn [isolated_loop]. unfold mbind, async_bind, bind at 1.
  rewrite createIframe_eq. cbn [bind_stage]. cbv beta.
  match goal with |- context [set_children ?f ?x] =>
    generalize (set_children f x) end.
  intros s1. unfold setIframeViewport. destruct (ui_api env).
  - unfold_async. cbn. eexists _, _. split; [reflexivity|].
    right. eexists _, _. split; [reflexivity|].
    intros [] s'; cbn; (eexists; split; [reflexivity|]); [|done].
    eexists. split; [reflexivity|].
    intros [] s''; cbn; (eexists; split; [reflexivity|]); [|done].
    eexists. split; [reflexivity|].
    intros s3. cbn. by destruct (isolated_loop env width height files s3) as [[? ?] ?].
  - unfold_async. cbn. eexists _, _. split; [reflexivity|].
    left. eexists. split; [reflexivity|].
    intros [] s''; cbn; (eexists; split; [reflexivity|]); [|done].
    eexists. split; [reflexivity|].
    intros s3. cbn. by destruct (isolated_loop env width height files s3) as [[? ?] ?].
Qed.

Lemma createTesters_unfold env files :
  createTesters env files =
  (modify (set_runningFiles (λ _, list_to_set files));;
   awaited (getContainer env);;
   after_container env files).
Proof. reflexivity. Qed.

Lemma after_container_isolated env files s :
  isolate env ≠ Some false →
  after_container env files s =
  isolated_loop env (viewport env).1 (viewport env).2 files (torn_down env s).
Proof.
  intros Hiso. unfold after_container, torn_down, remove_all_iframes.
  rewrite bool_decide_false by done. destruct (viewport env) as [w h].
  destruct (browser_ui env); unfold_async; cbn;
    match goal with |- context [isolated_loop env w h files ?x] =>
      by destruct (isolated_loop env w h files x) as [[? ?] ?] end.
Qed.

Lemma createTesters_isolated env files s :
  isolate env ≠ Some false →
  ∃ r, createTesters env files s = (set_runningFiles (λ _, list_to_set files) s, [], r) ∧
       at_container env files r.
Proof.
  intros Hiso. rewrite createTesters_unfold.
  pose proof (after_container_isolated env files) as Hrest.
  revert Hrest. generalize (after_container env files). intros X HX.
  assert (Hstart : ∀ k,
    (∀ o t, k o t = match o with Resolved => X t | Rejected => (t, [], Thrown) end) →
    at_start env files (Suspended WTick k)).
  { intros k Hk. exists k. split; [done|]. intros o t. rewrite Hk.
    destruct o; [by apply HX|done]. }
  unfold getContainer.
  destruct (browser_ui env) eqn:Hui; [destruct (tester_ui s) eqn:Hel|].
  - unfold_async. cbn. rewrite Hel. cbn. eexists. split; [reflexivity|].
    left. apply Hstart. intros [] t; cbn; [|done]. by destruct (X t) as [[? ?] ?].
  - unfold_async. cbn. rewrite Hel. cbn. eexists. split; [reflexivity|].
    right. eexists. split; [reflexivity|].
    intros [] t; cbn; (eexists; split; [reflexivity|]); [|done].
    apply Hstart. intros [] t'; cbn; [|done]. by destruct (X t') as [[? ?] ?].
  - unfold_async. cbn. eexists. split; [reflexivity|].
    left. apply Hstart. intros [] t; cbn; [|done]. by destruct (X t) as [[? ?] ?].
Qed.

Lemma unfolds_returned {A} (a : A) items : unfolds (Returned a) items → items = [].
Proof. by inversion 1. Qed.

Lemma unfolds_thrown {A} items : unfolds (@Thrown A) items → items = [].
Proof. by inversion 1. Qed.

Lemma marks_app l1 l2 : marks (l1 ++ l2) = marks l1 ++ marks l2.
Proof. apply omap_app. Qed.

Lemma created_app l1 l2 : created (l1 ++ l2) = created l1 ++ created l2.
Proof. apply omap_app. Qed.

Lemma at_channel_round env width height files r items :
  (∀ s s' l r' items',
     isolated_loop env width height files s = (s', l, r') →
     unfolds r' items' → alternates files (marks ((Did <$> l) ++ items'))) →
  at_channel env width height files r →
  unfolds r items → round_ends files items.
Proof.
  intros IH (k & -> & Hk) Hunf.
  inversion Hunf as [|? ? ? ? ? ? ? ? Hw|? e s s' l r' items' He Hstep Hrest]; subst.
  - by left.
  - done.
  - right. exists e, (marks ((Did <$> l) ++ items')). split; [done|]. split; [done|].
    rewrite Hk in Hstep. by eapply IH.
Qed.

Lemma at_tick_round env width height files r items :
  (∀ s s' l r' items',
     isolated_loop env width height files s = (s', l, r') →
     unfolds r' items' → alternates files (marks ((Did <$> l) ++ items'))) →
  at_tick env width height files r →
  unfolds r items → round_ends files items.
Proof.
  intros IH (k & -> & Hk) Hunf.
  inversion Hunf as [|? ? o s s' l r' items' Hw Hstep Hrest|]; subst.
  - by left.
  - destruct (Hk o s) as (r'' & Heq & Hr''). rewrite Heq in Hstep.
    injection Hstep as <- <- <-. cbn [fmap list_fmap app].
    destruct o.
    + destruct (at_channel_round _ _ _ _ _ _ IH Hr'' Hrest) as [Hnil|(e & tail & ? & Hm & ?)].
      * left. exact Hnil.
      * right. exists e, tail. done.
    + subst r''. apply unfolds_thrown in Hrest as ->. by left.
Qed.

Lemma at_viewport_round env width height files r items :
  (∀ s s' l r' items',
     isolated_loop env width height files s = (s', l, r') →
     unfolds r' items' → alternates files (marks ((Did <$> l) ++ items'))) →
  at_viewport env width height files r →
  unfolds r items → round_ends files items.
Proof.
  intros IH [Htick|(c & k & -> & Hk)] Hunf; [by eapply at_tick_round|].
  inversion Hunf as [|? ? o s s' l r' items' Hw Hstep Hrest|]; subst.
  - by left.
  - destruct (Hk o s) as (r'' & Heq & Hr''). rewrite Heq in Hstep.
    injection Hstep as <- <- <-. cbn [fmap list_fmap app].
    destruct o.
    + destruct (at_tick_round _ _ _ _ _ _ IH Hr'' Hrest) as [Hnil|(e & tail & ? & Hm & ?)].
      * left. exact Hnil.
      * right. exists e, tail. done.
    + subst r''. apply unfolds_thrown in Hrest as ->. by left.
Qed.

Lemma marks_effects_quiet env width height :
  marks (Did <$> (if ui_api env then [Called (UiSetIframeViewport width height)] else [])) = [].
Proof. by destruct (ui_api env). Qed.

Lemma loop_alternates env width height files s s' l r items :
  isolated_loop env width height files s = (s', l, r) →
  unfolds r items →
  alternates files (marks ((Did <$> l) ++ items)).
Proof.
  revert s s' l r items.
  induction files as [|file files IH]; intros s s' l r items Heq Hunf.
  - cbn in Heq. injection Heq as <- <- <-.
    apply unfolds_returned in Hunf as ->. constructor.
  - destruct (isolated_loop_cons env width height file files s) as (s1 & r1 & Heq1 & Hr1).
    rewrite Heq1 in Heq. injection Heq as <- <- <-.
    rewrite fmap_cons, <- app_comm_cons.
    change (marks (?x :: ?l)) with (marks [x] ++ marks l).
    rewrite marks_app, marks_effects_quiet. cbn [app marks omap].
    destruct (at_viewport_round _ _ _ _ _ _ IH Hr1 Hunf) as [->|(e & tail & ? & -> & ?)].
    + constructor.
    + by constructor.
Qed.

Lemma at_start_alternates env files r items :
  at_start env files r → unfolds r items → alternates files (marks items).
Proof.
  intros (k & -> & Hk) Hunf.
  inversion Hunf as [|? ? o s s' l r' items' Hw Hstep Hrest|]; subst.
  - constructor.
  - rewrite Hk in Hstep. change (marks (?x :: ?l)) with (marks [x] ++ marks l).
    cbn [marks omap app]. change (omap _ ?x) with (marks x). destruct o.
    + by eapply loop_alternates.
    + injection Hstep as <- <- <-. apply unfolds_thrown in Hrest as ->. constructor.
Qed.

Lemma createTesters_alternates env files items :
  isolate env ≠ Some false →
  behaves (createTesters env files) items → alternates files (marks items).
Proof.
  intros Hiso (s & s' & l & r & rest & Heq & Hunf & ->).
  destruct (createTesters_isolated env files s Hiso) as (r0 & Heq0 & Hr0).
  rewrite Heq0 in Heq. injection Heq as <- <- <-. cbn [fmap list_fmap app].
  destruct Hr0 as [Hstart|(k & -> & Hk)]; [by eapply at_start_alternates|].
  inversion Hunf as [|? ? o t t' l r' items' Hw Hstep Hrest|]; subst.
  - constructor.
  - destruct (Hk o t) as (r'' & Heq & Hr''). rewrite Heq in Hstep.
    injection Hstep as <- <- <-. cbn [fmap list_fmap app].
    change (marks (?x :: ?l)) with (marks [x] ++ marks l).
    cbn [marks omap app]. change (omap _ ?x) with (marks x). destruct o.
    + by eapply at_start_alternates.
    + subst r''. apply unfolds_thrown in Hrest as ->. constructor.
Qed.

(** From the marks back to the items. *)

Lemma created_marks items :
  created items = omap (λ m, match m with inl file => Some file | inr _ => None end)
                       (marks items).
Proof.
  unfold created, marks.
  induction items as [|[[]| |] items IH]; simpl;
    first [done | exact IH | f_equal; exact IH].
Qed.

Lemma observed_in_marks e items : inr e ∈ marks items → Observed e ∈ items.
Proof.
  unfold marks. rewrite list_elem_of_omap. intros (i & Hi & Hm).
  destruct i as [[]| |]; simplify_eq. done.
Qed.

Lemma alternates_prefix files m :
  alternates files m →
  omap (λ m, match m with inl file => Some file | inr _ => None end) m `prefix_of` files.
Proof.
  induction 1 as [files|file files|file files e tail He Htail IH]; cbn.
  - apply prefix_nil.
  - apply prefix_cons, prefix_nil.
  - by apply prefix_cons.
Qed.

Lemma alternates_between files m before file between file' after :
  alternates files m →
  m = before ++ inl file :: between ++ inl file' :: after →
  ∃ e, inr e ∈ between ∧ completes e = true.
Proof.
  intros Halt. revert before.
  induction Halt as [files|f files|f files e tail He Htail IH]; intros before Heq.
  - by destruct before.
  - destruct before as [|? [|? ?]]; simplify_eq/=. by destruct between.
  - destruct before as [|x before]; simplify_eq/=.
    + destruct between as [|y between]; simplify_eq/=.
      exists e. split; [left|done].
    + destruct before as [|y before]; simplify_eq/=. by eapply IH.
Qed.

Lemma completes_type e :
  completes e = true → event_type e = "done" ∨ event_type e = "error".
Proof.
  unfold completes. intros [H|H]%orb_true_iff; apply bool_decide_eq_true in H; auto.
Qed.

(** A run of the loop in which every wait ends well and a [done] message
    follows each iframe. *)
Lemma loop_completes env width height files s :
  ∃ s' l r items,
    isolated_loop env width height files s = (s', l, r) ∧
    unfolds r items ∧ created ((Did <$> l) ++ items) = files.
Proof.
  revert s. induction files as [|file files IH]; intros s.
  - exists s, [], (Returned tt), []. split; [done|]. split; [constructor|done].
  - destruct (isolated_loop_cons env width height file files s) as (s1 & r1 & Heq1 & Hr1).
    assert (Hchannel : ∀ r, at_channel env width height files r →
      ∃ items, unfolds r items ∧ created items = files).
    { intros r (k & -> & Hk). destruct (IH s) as (s' & l & r' & items & Heq & Hunf & Hc).
      exists (Observed (IframeDoneEvent [file] file) :: (Did <$> l) ++ items).
      split; [|done]. eapply unfolds_message; [done| |done]. by rewrite Hk. }
    assert (Htick : ∀ r, at_tick env width height files r →
      ∃ items, unfolds r items ∧ created items = files).
    { intros r (k & -> & Hk). destruct (Hk Resolved s) as (r' & Heq & Hr').
      destruct (Hchannel r' Hr') as (items & Hunf & Hc).
      exists (Resumed WTick Resolved :: (Did <$> []) ++ items).
      split; [|done]. eapply unfolds_settle; [done| |done]. exact Heq. }
    assert (Hview : ∃ items, unfolds r1 items ∧ created items = files).
    { destruct Hr1 as [Ht|(c & k & -> & Hk)]; [by apply Htick|].
      destruct (Hk Resolved s) as (r' & Heq & Hr').
      destruct (Htick r' Hr') as (items & Hunf & Hc).
      exists (Resumed (WCall c) Resolved :: (Did <$> []) ++ items).
      split; [|done]. eapply unfolds_settle; [done| |done]. exact Heq. }
    destruct Hview as (items & Hunf & Hc).
    eexists _, _, _, items. split; [exact Heq1|]. split; [done|].
    rewrite fmap_cons, <- app_comm_cons.
    change (created (?x :: ?l)) with (created [x] ++ created l).
    rewrite created_app, Hc. by destruct (ui_api env).
Qed.

Lemma createTesters_completes env files :
  isolate env ≠ Some false →
  ∃ items, behaves (createTesters env files) items ∧ created items = files.
Proof.
  intros Hiso.
  destruct (createTesters_isolated env files initial_store Hiso) as (r0 & Heq0 & Hr0).
  assert (Hstart : ∀ r, at_start env files r →
    ∃ items, unfolds r items ∧ created items = files).
  { intros r (k & -> & Hk).
    destruct (loop_completes env (viewport env).1 (viewport env).2 files
                (torn_down env initial_store)) as (s' & l & r' & items & Heq & Hunf & Hc).
    exists (Resumed WTick Resolved :: (Did <$> l) ++ items).
    split; [|done]. eapply unfolds_settle; [done| |done]. by rewrite Hk. }
  assert (Hall : ∃ items, unfolds r0 items ∧ created items = files).
  { destruct Hr0 as [Hs|(k & -> & Hk)]; [by apply Hstart|].
    destruct (Hk Resolved initial_store) as (r' & Heq & Hr').
    destruct (Hstart r' Hr') as (items & Hunf & Hc).
    exists (Resumed WContainer Resolved :: (Did <$> []) ++ items).
    split; [|done]. eapply unfolds_settle; [done| |done]. exact Heq. }
  destruct Hall as (items & Hunf & Hc).
  exists ((Did <$> []) ++ items). split; [|done].
  eexists _, _, _, _, _. split; [exact Heq0|]. split; [exact Hunf|done].
Qed.

(** ** The stretches of the isolated loop *)

Lemma created_store_spec file s :
  iframes (created_store file s) = <[file := next_handle s]> (iframes s) ∧
  children (created_store file s) =
    match iframes s !! file with
    | Some old => filter (λ x, x ≠ old) (children s)
    | None => children s
    end ++ [next_handle s] ∧
  next_handle (created_store file s) = S (next_handle s).
Proof.
  destruct (createIframe_store all_resolve file s) as (Hi & Hc & Hn & _).
  cbn zeta in *. rewrite run_createIframe in *. done.
Qed.

Lemma items_of_cons st sts :
  items_of (st :: sts) = option_list (cause st) ++ (Did <$> effects st) ++ items_of sts.
Proof. unfold items_of. cbn. by rewrite <- app_assoc. Qed.

Lemma unfolds_on_items {A} (r : stage A) sts : unfolds_on r sts → unfolds r (items_of sts).
Proof.
  induction 1 as [r|w k o s s' l r rest Hw Hk _ IH|k e s s' l r rest He Hk _ IH].
  - constructor.
  - rewrite items_of_cons. by eapply unfolds_settle.
  - rewrite items_of_cons. by eapply unfolds_message.
Qed.

Lemma unfolds_items_on {A} (r : stage A) items :
  unfolds r items → ∃ sts, unfolds_on r sts ∧ items_of sts = items.
Proof.
  induction 1 as [r|w k o s s' l r items Hw Hk _ (sts & Hon & <-)
                   |k e s s' l r items He Hk _ (sts & Hon & <-)].
  - exists []. split; [constructor|done].
  - eexists (_ :: sts). split; [by eapply unfolds_on_settle|by rewrite items_of_cons].
  - eexists (_ :: sts). split; [by eapply unfolds_on_message|by rewrite items_of_cons].
Qed.

Lemma runs_through_behaves {A} (m : async A) sts :
  runs_through m sts → behaves m (items_of sts).
Proof.
  intros (s & s' & l & r & rest & Heq & Hon & ->).
  exists s, s', l, r, (items_of rest). split; [done|].
  split; [by apply unfolds_on_items|by rewrite items_of_cons].
Qed.

Lemma behaves_runs_through {A} (m : async A) items :
  behaves m items → ∃ sts, runs_through m sts ∧ items_of sts = items.
Proof.
  intros (s & s' & l & r & rest & Heq & Hunf & ->).
  destruct (unfolds_items_on r rest Hunf) as (sts & Hon & <-).
  eexists (_ :: sts). split; [by exists s, s', l, r, sts|by rewrite items_of_cons].
Qed.

Lemma unfolds_on_thrown {A} sts : unfolds_on (@Thrown A) sts → sts = [].
Proof. by inversion 1. Qed.

Lemma unfolds_on_returned {A} (a : A) sts : unfolds_on (Returned a) sts → sts = [].
Proof. by inversion 1. Qed.

Lemma registers_nothing c s : registers {| cause := c; effects := []; reached := s |}.
Proof. intros file h Hin. by apply elem_of_nil in Hin. Qed.

Lemma created_store_document file s :
  document (created_store file s) !! next_handle s
  = Some {| src_file := file; style_width := None; style_height := None |}.
Proof.
  unfold created_store. cbn [document set_children set_iframes create_element].
  assert (Hn : next_handle (if bool_decide (is_Some (iframes s !! file))
                            then set_iframes (delete file) (detach file s) else s)
               = next_handle s).
  { case_bool_decide; [|done]. unfold detach. by destruct (iframes s !! file). }
  rewrite Hn. apply lookup_insert_eq.
Qed.

Lemma isolated_loop_store env width height file files s :
  (isolated_loop env width height (file :: files) s).1.1 =
  if ui_api env then created_store file s
  else set_style env (next_handle s) width height (created_store file s).
Proof.
  cbn [isolated_loop]. unfold mbind, async_bind, bind at 1.
  rewrite createIframe_eq. cbn [bind_stage]. cbv beta.
  unfold setIframeViewport, created_store. destruct (ui_api env); unfold_async; by cbn.
Qed.

Lemma isolated_loop_registers env width height file files s c :
  registers {| cause := c;
               effects := (isolated_loop env width height (file :: files) s).1.2;
               reached := (isolated_loop env width height (file :: files) s).1.1 |}.
Proof.
  destruct (isolated_loop_cons env width height file files s) as (s1 & r & Heq & _).
  rewrite isolated_loop_store. rewrite Heq. cbn [fst snd].
  intros f h Hin. cbn [effects reached] in *.
  assert (f = file ∧ h = next_handle s) as [-> ->].
  { apply elem_of_cons in Hin as [Hin|Hin]; [by simplify_eq|].
    destruct (ui_api env); [apply list_elem_of_singleton in Hin; simplify_eq|
                            by apply elem_of_nil in Hin]. }
  destruct (created_store_spec file s) as (Hi & Hc & _).
  pose proof (created_store_document file s) as Hd.
  destruct (ui_api env).
  - rewrite Hi, Hc, Hd. split; [apply lookup_insert_eq|]. split; [|done].
    apply elem_of_app. right. by left.
  - cbn [iframes children document set_style]. rewrite Hi, Hc.
    split; [apply lookup_insert_eq|]. split; [apply elem_of_app; right; by left|].
    rewrite lookup_alter_eq, Hd. done.
Qed.

Section Rounds.

Context (env : environment) (width height : number) (files : list string).
Hypothesis rounds_register : ∀ c s s' l r sts,
  isolated_loop env width height files s = (s', l, r) →
  unfolds_on r sts →
  Forall registers ({| cause := c; effects := l; reached := s' |} :: sts).

Lemma at_channel_registers r sts :
  at_channel env width height files r → unfolds_on r sts → Forall registers sts.
Proof using rounds_register.
  intros (k & -> & Hk) Hon.
  inversion Hon as [|? ? ? ? ? ? ? ? Hw|? e s s' l r' rest He Hstep Hrest]; subst.
  - constructor.
  - done.
  - rewrite Hk in Hstep. by eapply rounds_register.
Qed.

Lemma at_tick_registers r sts :
  at_tick env width height files r → unfolds_on r sts → Forall registers sts.
Proof using rounds_register.
  intros (k & -> & Hk) Hon.
  inversion Hon as [|? ? o s s' l r' rest Hw Hstep Hrest|]; subst; [constructor|].
  destruct (Hk o s) as (r'' & Heq & Hr''). rewrite Heq in Hstep.
  injection Hstep as <- <- <-. constructor; [apply registers_nothing|].
  destruct o.
  - by eapply at_channel_registers.
  - subst r''. apply unfolds_on_thrown in Hrest as ->. constructor.
Qed.

Lemma at_viewport_registers r sts :
  at_viewport env width height files r → unfolds_on r sts → Forall registers sts.
Proof using rounds_register.
  intros [Htick|(c & k & -> & Hk)] Hon; [by eapply at_tick_registers|].
  inversion Hon as [|? ? o s s' l r' rest Hw Hstep Hrest|]; subst; [constructor|].
  destruct (Hk o s) as (r'' & Heq & Hr''). rewrite Heq in Hstep.
  injection Hstep as <- <- <-. constructor; [apply registers_nothing|].
  destruct o.
  - by eapply at_tick_registers.
  - subst r''. apply unfolds_on_thrown in Hrest as ->. constructor.
Qed.

End Rounds.

Lemma loop_registers env width height files c s s' l r sts :
  isolated_loop env width height files s = (s', l, r) →
  unfolds_on r sts →
  Forall registers ({| cause := c; effects := l; reached := s' |} :: sts).
Proof.
  revert c s s' l r sts.
  induction files as [|file files IH]; intros c s s' l r sts Heq Hon.
  - cbn in Heq. injection Heq as <- <- <-.
    apply unfolds_on_returned in Hon as ->. constructor; [apply registers_nothing|constructor].
  - constructor.
    + pose proof (isolated_loop_registers env width height file files s c) as Hreg.
      by rewrite Heq in Hreg.
    + destruct (isolated_loop_cons env width height file files s) as (s1 & r1 & Heq1 & Hr1).
      rewrite Heq1 in Heq. injection Heq as <- <- <-.
      eapply at_viewport_registers; [|exact Hr1|exact Hon].
      intros c' t t' l' r' sts'. apply IH.
Qed.

Lemma at_start_registers env files r sts :
  at_start env files r → unfolds_on r sts → Forall registers sts.
Proof.
  intros (k & -> & Hk) Hon.
  inversion Hon as [|? ? o s s' l r' rest Hw Hstep Hrest|]; subst; [constructor|].
  rewrite Hk in Hstep. destruct o.
  - by eapply loop_registers.
  - injection Hstep as <- <- <-. apply unfolds_on_thrown in Hrest as ->.
    constructor; [apply registers_nothing|constructor].
Qed.

Lemma createTesters_registers env files sts :
  isolate env ≠ Some false →
  runs_through (createTesters env files) sts → Forall registers sts.
Proof.
  intros Hiso (s & s' & l & r & rest & Heq & Hon & ->).
  destruct (createTesters_isolated env files s Hiso) as (r0 & Heq0 & Hr0).
  rewrite Heq0 in Heq. injection Heq as <- <- <-.
  constructor; [apply registers_nothing|].
  destruct Hr0 as [Hstart|(k & -> & Hk)]; [by eapply at_start_registers|].
  inversion Hon as [|? ? o t t' l r' rest' Hw Hstep Hrest|]; subst; [constructor|].
  destruct (Hk o t) as (r'' & Heq & Hr''). rewrite Heq in Hstep.
  injection Hstep as <- <- <-. constructor; [apply registers_nothing|].
  destruct o.
  - by eapply at_start_registers.
  - subst r''. apply unfolds_on_thrown in Hrest as ->. constructor.
Qed.

(** ** Rounds that end with the [done] of their own iframe *)

Lemma idle_bind_stage {A B} (r : stage A) (f : A → async B) s :
  idle r → (∀ a, idle_async (f a)) →
  (bind_stage r f s).1.1 = s ∧ idle (bind_stage r f s).2.
Proof.
  intros Hr Hf. revert s.
  induction Hr as [a| |w k Hw Hkeep Hidle IH]; intros s; cbn [bind_stage].
  - apply Hf.
  - split; [done|constructor].
  - split; [done|]. constructor; [done|..]; intros o s'; specialize (Hkeep o s');
      specialize (IH o s'); destruct (k o s') as [[s1 l1] r1]; cbn [fst snd] in *;
      specialize (IH s1); destruct (bind_stage r1 f s1) as [[s2 l2] r2];
      cbn [fst snd] in *; [by etrans; [apply IH|]|apply IH].
Qed.

Lemma idle_bind {A B} (m : async A) (f : A → async B) :
  idle_async m → (∀ a, idle_async (f a)) → idle_async (m ≫= f).
Proof.
  intros Hm Hf s. unfold mbind, async_bind, bind.
  destruct (Hm s) as [Hkeep Hidle]. destruct (m s) as [[s1 l1] r1]. cbn [fst snd] in *.
  destruct (idle_bind_stage r1 f s1 Hidle Hf) as [Hkeep' Hidle'].
  destruct (bind_stage r1 f s1) as [[s2 l2] r2]. cbn [fst snd] in *.
  split; [by etrans|done].
Qed.

Lemma idle_ret {A} (a : A) : idle_async (mret a).
Proof. intros s. split; [done|constructor]. Qed.

Lemma idle_throw {A} : idle_async (@throw A).
Proof. intros s. split; [done|constructor]. Qed.

Lemma idle_emit e : idle_async (emit e).
Proof. intros s. split; [done|constructor]. Qed.

Lemma idle_await w : w ≠ WChannel → idle_async (await w).
Proof.
  intros Hw s. split; [done|]. constructor; [done|..]; intros o s'; cbn; [done|].
  destruct o; constructor.
Qed.

Lemma idle_finally_stage {A} (r : stage A) (final : async unit) s :
  idle r → idle_async final →
  (finally_stage r final s).1.1 = s ∧ idle (finally_stage r final s).2.
Proof.
  intros Hr Hf. revert s.
  induction Hr as [a| |w k Hw Hkeep Hidle IH]; intros s; cbn [finally_stage].
  - apply idle_bind; [done|]. intros _. apply idle_ret.
  - apply idle_bind; [done|]. intros _. apply idle_throw.
  - split; [done|]. constructor; [done|..]; intros o s'; specialize (Hkeep o s');
      specialize (IH o s'); destruct (k o s') as [[s1 l1] r1]; cbn [fst snd] in *;
      specialize (IH s1); destruct (finally_stage r1 final s1) as [[s2 l2] r2];
      cbn [fst snd] in *; [by etrans; [apply IH|]|apply IH].
Qed.

Lemma idle_try_finally {A} (body : async A) (final : async unit) :
  idle_async body → idle_async final → idle_async (try_finally body final).
Proof.
  intros Hb Hf s. unfold try_finally.
  destruct (Hb s) as [Hkeep Hidle]. destruct (body s) as [[s1 l1] r1]. cbn [fst snd] in *.
  destruct (idle_finally_stage r1 final s1 Hidle Hf) as [Hkeep' Hidle'].
  destruct (finally_stage r1 final s1) as [[s2 l2] r2]. cbn [fst snd] in *.
  split; [by etrans|done].
Qed.

Lemma idle_awaited {A} (m : async A) : idle_async m → idle_async (awaited m).
Proof.
  intros Hm. apply idle_bind; [done|]. intros a.
  apply idle_bind; [by apply idle_await|]. intros _. apply idle_ret.
Qed.

Lemma idle_awaited_call c : idle_async (awaited_call c).
Proof. apply idle_bind; [apply idle_emit|]. intros _. by apply idle_await. Qed.

Lemma idle_done env testFinished : idle_async (done env testFinished).
Proof.
  apply idle_bind; [apply idle_emit|]. intros _. apply idle_try_finally.
  - apply idle_bind; [apply idle_awaited_call|]. intros _. apply idle_awaited_call.
  - destruct (testFinished && ui_api env); [apply idle_emit|apply idle_ret].
Qed.

Lemma idle_debug env args : idle_async (debug env args).
Proof. unfold debug. destruct (debug_flag env); [apply idle_emit|apply idle_ret]. Qed.

(** The first stretch of the listener on the [done] event of one file. *)
Lemma listener_done_stretch env file s :
  let x := listener env (IframeDoneEvent [file] file) s in
  x.1.1 = (if bool_decide (runningFiles s ∖ {[file]} = ∅)
           then set_runningFiles (λ r, r ∖ {[file]}) s
           else set_iframes (delete file)
                  (detach file (set_runningFiles (λ r, r ∖ {[file]}) s))) ∧
  idle x.2.
Proof.
  cbn zeta. unfold listener.
  assert (Hend : idle_async
    ((if ui_api env && bool_decide (1 < length [file]) then
        match last [file] with
        | Some file => emit (UiSetCurrentFileId (generateFileId env file))
        | None => mret tt
        end
      else mret tt);; awaited (done env true))).
  { apply idle_bind; [|intros _; apply idle_awaited, idle_done].
    destruct (ui_api env && _); [|apply idle_ret]. apply idle_emit. }
  revert Hend. generalize ((if ui_api env && bool_decide (1 < length [file]) then
        match last [file] with
        | Some file => emit (UiSetCurrentFileId (generateFileId env file))
        | None => mret tt
        end
      else mret tt);; awaited (done env true)).
  intros X HX. unfold debug.
  rewrite <- (bool_decide_ext _ _ (size_zero (runningFiles s ∖ {[file]}))).
  destruct (debug_flag env); unfold_async; cbn;
    (destruct (bool_decide (size (runningFiles s ∖ {[file]}) = 0)) eqn:Hsz; cbn;
     [destruct (HX (set_runningFiles (λ r, r ∖ {[file]}) s)) as [Hkeep Hidle];
      destruct (X _) as [[s2 l2] r2]; cbn in *; by subst
     |unfold detach, remove_registered, iframe_remove; unfold_async; cbn;
      destruct (iframes s !! file); cbn; split; (reflexivity || constructor)]).
Qed.

Lemma round_store_bound file files s :
  round_store file files s → length (children s) ≤ 1 ∧ size (iframes s) ≤ 1.
Proof.
  intros [(h & -> & -> & _)|[-> ->]].
  - by rewrite map_size_singleton.
  - rewrite map_size_empty. cbn. lia.
Qed.

Lemma phase_bound env f s p ws :
  phase env f s p ws → length (children s) ≤ 1 ∧ size (iframes s) ≤ 1.
Proof.
  destruct 1 as [files s r R _ _ _ -> -> _|width height file files s r R _ _ _ Hs|s p _ ? ?].
  - rewrite map_size_empty. cbn. lia.
  - by eapply round_store_bound.
  - done.
Qed.

Lemma phase_ext env f s s' p ws :
  iframes s' = iframes s → children s' = children s → runningFiles s' = runningFiles s →
  phase env f s p ws → phase env f s' p ws.
Proof.
  intros Hi Hc Hr.
  destruct 1 as [files s r R ? ? ? ? ? ?|width height file files s r R ? ? ? Hs|s p ? ? ?].
  - eapply phase_before; [done..|by rewrite Hi|by rewrite Hc|by rewrite Hr].
  - eapply phase_round; [done..|]. unfold round_store. by rewrite Hi, Hc, Hr.
  - apply phase_after; [done|by rewrite Hc|by rewrite Hi].
Qed.

Lemma in_round_settle env width height files w k o s :
  in_round env width height files (Suspended w k) → w ≠ WChannel →
  ∃ r', k o s = (s, [], r') ∧ (in_round env width height files r' ∨ r' = Thrown).
Proof.
  intros [[(k0 & Heq & Hk)|(c & k0 & Heq & Hk)]|(k0 & Heq & Hk)] Hw; simplify_eq.
  - destruct (Hk o s) as (r' & -> & Hr'). exists r'. split; [done|].
    destruct o; [left; by right|by right].
  - destruct (Hk o s) as (r' & -> & Hr'). exists r'. split; [done|].
    destruct o; [left; left; by left|by right].
Qed.

Lemma in_round_message env width height files k s :
  in_round env width height files (Suspended WChannel k) →
  k Resolved s = isolated_loop env width height files s.
Proof.
  intros [[(k0 & Heq & Hk)|(c & k0 & Heq & Hk)]|(k0 & Heq & Hk)]; simplify_eq.
  apply Hk.
Qed.

Lemma in_round_suspended env width height files r :
  in_round env width height files r → ∃ w k, r = Suspended w k.
Proof.
  intros [[(k0 & -> & _)|(c & k0 & -> & _)]|(k0 & -> & _)]; by eexists _, _.
Qed.

Lemma at_container_suspended env files r :
  at_container env files r → ∃ w k, r = Suspended w k ∧ w ≠ WChannel.
Proof. intros [(k & -> & _)|(k & -> & _)]; by eexists _, _. Qed.

Lemma wraps_intro {A B} (f : A → async B) w k :
  wraps f (Suspended w k) (Suspended w (λ o s, then_stage f (k o s))).
Proof. by eexists _, _. Qed.

Lemma runningFiles_created file s :
  runningFiles (created_store file s) = runningFiles s.
Proof.
  unfold created_store. cbn. case_bool_decide; [|done]. cbn. apply runningFiles_detach.
Qed.

Lemma loop_first env width height file files s :
  ∃ s1 l r, isolated_loop env width height (file :: files) s = (s1, l, r) ∧
    at_viewport env width height files r ∧
    iframes s1 = <[file := next_handle s]> (iframes s) ∧
    children s1 = match iframes s !! file with
                  | Some old => filter (λ x, x ≠ old) (children s)
                  | None => children s
                  end ++ [next_handle s] ∧
    runningFiles s1 = runningFiles s.
Proof.
  destruct (isolated_loop_cons env width height file files s) as (s1 & r & Heq & Hr).
  eexists s1, _, r. split; [exact Heq|]. split; [exact Hr|].
  pose proof (isolated_loop_store env width height file files s) as Hs.
  rewrite Heq in Hs. cbn [fst] in Hs. subst s1.
  destruct (created_store_spec file s) as (Hi & Hc & _).
  pose proof (runningFiles_created file s) as Hrun.
  by destruct (ui_api env).
Qed.

Lemma calm_park_testing r : idle r → calm (park Testing r).
Proof. intros Hr. by destruct r. Qed.

Lemma calm_park_listening r : idle r → calm (park Listening r).
Proof. intros Hr. by destruct r. Qed.

Lemma idle_off_channel (r : stage unit) : idle r → on_channel r = false.
Proof. destruct 1 as [| |w k Hw]; try done. by destruct w. Qed.

(** The wrapped loop, from a store without iframes. *)
Lemma loop_phase env f width height files s :
  (∀ a, idle_async (f a)) → NoDup files →
  iframes s = ∅ → children s = [] → runningFiles s = list_to_set files →
  ∃ s' l R, then_stage f (isolated_loop env width height files s) = (s', l, R) ∧
    phase env f s' (park Testing R) (if on_channel R then [0] else []).
Proof.
  intros Hf Hnd Hi Hc Hrun. destruct files as [|file files].
  - cbn [isolated_loop]. unfold mret, async_ret, ret. cbn [then_stage bind_stage].
    destruct (Hf tt s) as [Hkeep Hidle]. destruct (f tt s) as [[s' l] R]. cbn in *. subst s'.
    exists s, ([] ++ l), R. split; [done|].
    rewrite (idle_off_channel R Hidle). apply phase_after.
    + by apply calm_park_testing.
    + rewrite Hc. cbn. lia.
    + rewrite Hi, map_size_empty. lia.
  - destruct (loop_first env width height file files s) as (s1 & l & r & Heq & Hr & Hi1 & Hc1 & Hr1).
    rewrite Heq. destruct (in_round_suspended env width height files r (or_introl Hr))
      as (w & k & ->).
    cbn [then_stage bind_stage]. eexists _, _, _. split; [reflexivity|].
    cbn [park]. eapply phase_round; [by left|apply wraps_intro|done|].
    left. exists (next_handle s). rewrite Hi1, Hc1, Hr1, Hi, Hc, Hrun.
    rewrite lookup_empty. split; [by rewrite insert_empty|]. split; [done|by left].
Qed.

Lemma torn_down_empty env s :
  iframes s = ∅ → children s = [] →
  iframes (torn_down env s) = ∅ ∧ children (torn_down env s) = [] ∧
  runningFiles (torn_down env s) = runningFiles s.
Proof.
  intros Hi Hc. unfold torn_down. destruct (browser_ui env); cbn; [done|].
  by rewrite Hc.
Qed.

Lemma phase_settle env f s w K ws o :
  (∀ a, idle_async (f a)) →
  phase env f s (Testing (Suspended w K)) ws → w ≠ WChannel →
  ∃ s' l R', K o s = (s', l, R') ∧
    phase env f s' (park Testing R') (if on_channel R' then ws ++ [0] else ws).
Proof.
  intros Hf Hphase Hw.
  inversion Hphase as [files s0 r R Hr (w0 & k & -> & HR) Hnd Hi Hc Hrun
                      |width height file files s0 r R Hr (w0 & k & -> & HR) Hnd Hs
                      |s0 p Hcalm Hbc Hbi]; subst.
  - simplify_eq. destruct Hr as [(k0 & Heq & Hk)|(k0 & Heq & Hk)]; simplify_eq.
    + cbn beta. rewrite Hk. destruct o.
      * destruct (torn_down_empty env s Hi Hc) as (Hi' & Hc' & Hr').
        destruct (loop_phase env f (viewport env).1 (viewport env).2 files
                    (torn_down env s) Hf Hnd Hi' Hc') as (s' & l & R' & Heq & Hph);
          [by rewrite Hr'|].
        exists s', l, R'. split; [done|]. exact Hph.
      * eexists _, _, _. split; [reflexivity|]. cbn. apply phase_after; [done|..].
        -- rewrite Hc. cbn. lia.
        -- rewrite Hi, map_size_empty. lia.
    + cbn beta. destruct (Hk o s) as (r' & Heq & Hr'). rewrite Heq. destruct o.
      * destruct Hr' as (k' & -> & Hk'). eexists _, _, _. split; [reflexivity|].
        cbn. eapply phase_before; [left; by eexists|apply wraps_intro|done..].
      * subst r'. eexists _, _, _. split; [reflexivity|]. cbn. apply phase_after; [done|..].
        -- rewrite Hc. cbn. lia.
        -- rewrite Hi, map_size_empty. lia.
  - simplify_eq.
    assert (Hoff : on_channel (Suspended w0 (λ o s, then_stage f (k o s))) = false)
      by (by destruct w0).
    rewrite Hoff.
    destruct (in_round_settle env width height files w0 k o s Hr Hw) as (r' & Heq & Hr').
    cbn beta. rewrite Heq. destruct Hr' as [Hr'| ->].
    + destruct (in_round_suspended _ _ _ _ _ Hr') as (w' & k' & ->).
      eexists _, _, _. split; [reflexivity|]. cbn [park app].
      by eapply phase_round; [exact Hr'|apply wraps_intro|..].
    + eexists _, _, _. split; [reflexivity|]. cbn.
      destruct (round_store_bound _ _ _ Hs). by apply phase_after.
  - cbn in Hcalm. inversion Hcalm as [| |w' k' _ Hkeep Hidle]; subst.
    specialize (Hkeep o s). specialize (Hidle o s).
    destruct (K o s) as [[s' l] R']. cbn in *. subst s'.
    exists s, l, R'. split; [done|]. rewrite (idle_off_channel R' Hidle).
    apply phase_after; [by apply calm_park_testing|done..].
Qed.

Lemma size_delete_le (m : gmap string Handle) k : size (delete k m) ≤ size m.
Proof. apply map_subseteq_size, delete_subseteq. Qed.

Lemma phase_message env f s p ws file :
  (∀ a, idle_async (f a)) →
  phase env f s p ws → is_Some (iframes s !! file) →
  let s1 := (listener env (IframeDoneEvent [file] file) s).1.1 in
  match ws with
  | [] => phase env f s1 p []
  | i :: ws' =>
      i = 0 ∧ ws' = [] ∧ ∃ K, p = Testing (Suspended WChannel K) ∧
      ∃ s2 l R', K Resolved s1 = (s2, l, R') ∧
        phase env f s2 (park Testing R') (if on_channel R' then [0] else [])
  end.
Proof.
  intros Hf Hphase Hreg. cbn zeta.
  destruct (listener_done_stretch env file s) as [Hs1 _]. cbn zeta in Hs1. rewrite Hs1.
  clear Hs1.
  inversion Hphase as [files s0 r R Hr (w0 & k & -> & HR) Hnd Hi Hc Hrun
                      |width height file0 files s0 r R Hr (w0 & k & -> & HR) Hnd Hs
                      |s0 p0 Hcalm Hbc Hbi]; subst.
  - rewrite Hi, lookup_empty in Hreg. by destruct Hreg.
  - destruct Hs as [(h & Hi & Hc & Hrun)|[Hi _]];
      [|rewrite Hi, lookup_empty in Hreg; by destruct Hreg].
    assert (file = file0) as ->.
    { rewrite Hi in Hreg. destruct Hreg as [h' Hh'].
      by apply lookup_singleton_Some in Hh' as [? _]. }
    apply NoDup_cons in Hnd as [Hnotin Hnd].
    assert (Hrest : runningFiles s ∖ {[file0]} = list_to_set files).
    { destruct Hrun as [->|[-> ->]]; [|set_solver].
      apply set_eq. intros x. rewrite elem_of_difference, elem_of_list_to_set.
      rewrite elem_of_list_to_set, elem_of_cons. set_solver. }
    rewrite Hrest.
    destruct files as [|file' rest].
    + (* the last round: the iframe is kept *)
      rewrite bool_decide_true by done.
      assert (Hs1 : round_store file0 []
                (set_runningFiles (λ r, r ∖ {[file0]}) s)).
      { left. exists h. cbn. rewrite Hrest. split; [done|]. split; [done|]. by right. }
      destruct w0; cbn [on_channel];
        try (by eapply phase_round; [exact Hr|apply wraps_intro|by apply NoDup_cons|]).
      split; [done|]. split; [done|]. eexists. split; [reflexivity|]. cbn beta.
      rewrite (in_round_message _ _ _ _ _ _ Hr). cbn [isolated_loop].
      unfold mret, async_ret, ret. cbn [then_stage bind_stage].
      match goal with |- context [f tt ?t] =>
        destruct (Hf tt t) as [Hkeep Hidle]; destruct (f tt t) as [[s2 l2] R2] end.
      cbn in Hkeep, Hidle. subst s2. eexists _, _, _. split; [reflexivity|].
      rewrite (idle_off_channel R2 Hidle).
      destruct (round_store_bound _ _ _ Hs1).
      apply phase_after; [by apply calm_park_testing|done..].
    + (* another round is to come: the iframe is removed *)
      rewrite bool_decide_false by set_solver.
      set (s1 := set_iframes (delete file0)
                   (detach file0 (set_runningFiles (λ r, r ∖ {[file0]}) s))).
      assert (Hi1 : iframes s1 = ∅).
      { unfold s1. cbn. rewrite iframes_detach. cbn. rewrite Hi. apply delete_singleton_eq. }
      assert (Hc1 : children s1 = []).
      { unfold s1, detach. cbn. rewrite Hi, lookup_singleton_eq. cbn. rewrite Hc. cbn.
        by rewrite decide_False by (intros H; by apply H). }
      assert (Hr1 : runningFiles s1 = list_to_set (file' :: rest)).
      { unfold s1. cbn. rewrite runningFiles_detach. cbn. exact Hrest. }
      destruct w0; cbn [on_channel];
        try (by eapply phase_round; [exact Hr|apply wraps_intro|by apply NoDup_cons|by right]).
      split; [done|]. split; [done|]. eexists. split; [reflexivity|]. cbn beta.
      rewrite (in_round_message _ _ _ _ _ _ Hr).
      destruct (loop_phase env f width height (file' :: rest) s1 Hf Hnd Hi1 Hc1 Hr1)
        as (s2 & l & R' & Heq & Hph).
      by exists s2, l, R'.
  - destruct (phase_bound _ _ _ _ _ Hphase) as [Hlen Hsz].
    case_bool_decide.
    + by apply phase_after.
    + apply phase_after; [done|..].
      * cbn. unfold detach. cbn. destruct (iframes s !! file); cbn; [|done].
        etrans; [apply length_filter|done].
      * cbn. rewrite iframes_detach. cbn. etrans; [apply size_delete_le|done].
Qed.

Lemma calm_settle env i o s procs tr ls ws p :
  procs !! i = Some p → calm p →
  ∃ p' tr', calm p' ∧
    settle_process env i o
      {| mem := s; pool := procs; trace := tr; listeners := ls; waiting := ws |}
    = {| mem := s; pool := <[i := p']> procs; trace := tr'; listeners := ls; waiting := ws |}.
Proof.
  intros Hp Hcalm.
  assert (Hsame : ∃ p' tr', calm p' ∧
    {| mem := s; pool := procs; trace := tr; listeners := ls; waiting := ws |}
    = {| mem := s; pool := <[i := p']> procs; trace := tr'; listeners := ls; waiting := ws |}).
  { exists p, tr. split; [done|]. by rewrite list_insert_id. }
  unfold settle_process. cbn [pool]. rewrite Hp.
  destruct p as [[| |w k]|[| |w k]|q|o']; try done.
  - match goal with |- context [due ?pg w o] => destruct (due pg w o) as [o'|] end;
      [|done].
    unfold resume. cbn [pool mem]. rewrite Hp.
    cbn in Hcalm. inversion Hcalm as [| |? ? _ Hkeep Hidle]; subst.
    specialize (Hkeep o' s). specialize (Hidle o' s).
    destruct (k o' s) as [[s' l] r]. cbn in *. subst s'.
    rewrite (idle_off_channel r Hidle).
    eexists _, _. split; [|reflexivity]. by apply calm_park_listening.
  - match goal with |- context [due ?pg w o] => destruct (due pg w o) as [o'|] end;
      [|done].
    unfold resume. cbn [pool mem]. rewrite Hp.
    cbn in Hcalm. inversion Hcalm as [| |? ? _ Hkeep Hidle]; subst.
    specialize (Hkeep o' s). specialize (Hidle o' s).
    destruct (k o' s) as [[s' l] r]. cbn in *. subst s'.
    rewrite (idle_off_channel r Hidle).
    eexists _, _. split; [|reflexivity]. by apply calm_park_testing.
Qed.

Lemma start_eq role m pg s l r :
  m (mem pg) = (s, l, r) →
  start role m pg =
  {| mem := s; pool := pool pg ++ [park role r]; trace := trace pg ++ l;
     listeners := listeners pg;
     waiting := if on_channel r then waiting pg ++ [length (pool pg)] else waiting pg |}.
Proof. intros Heq. unfold start. by rewrite Heq. Qed.

Lemma own_step env f pg i :
  (∀ a, idle_async (f a)) →
  own_page env f pg → own_done pg i = true → own_page env f (step env pg i).
Proof.
  intros Hf [Hls (p0 & others & Hpool & Hcalm & Hphase)] Hi.
  destruct pg as [s procs tr ls ws]. cbn in Hls, Hpool, Hphase, Hi. subst ls procs.
  destruct i as [files|files|e|i o|]; try done.
  - (* a message *)
    destruct e as [[|file [|]] id| | | |]; try done.
    apply andb_true_iff in Hi as [Hid Hreg].
    apply bool_decide_eq_true in Hid as <-. apply bool_decide_eq_true in Hreg.
    pose proof (phase_message env f s p0 ws file Hf Hphase Hreg) as Hmsg.
    destruct (listener_done_stretch env file s) as [_ Hidle].
    cbn zeta in Hmsg, Hidle.
    cbn [step]. unfold deliver. cbn [listeners].
    change (Nat.iter 1 ?g ?x) with (g x).
    destruct (listener env (IframeDoneEvent [file] file) s) as [[s1 l1] r1] eqn:Hx.
    rewrite (start_eq _ _ _ s1 l1 r1) by exact Hx.
    cbn [fst snd] in Hmsg, Hidle. rewrite (idle_off_channel r1 Hidle).
    cbn [mem pool trace listeners waiting].
    change (completes (IframeDoneEvent [file] file)) with true. cbv iota.
    assert (Hcalm' : Forall calm (others ++ [park Listening r1])).
    { apply Forall_app. split; [done|]. constructor; [|done]. by apply calm_park_listening. }
    destruct ws as [|i ws'].
    + cbn [foldl]. split; [done|]. cbn. by exists p0, (others ++ [park Listening r1]).
    + destruct Hmsg as (-> & -> & K & -> & s2 & l & R' & Heq & Hph).
      cbn [foldl]. unfold resume. cbn. rewrite Heq.
      split; [done|]. cbn. exists (park Testing R'), (others ++ [park Listening r1]).
      split; [done|]. split; [done|]. exact Hph.
  - (* something settles *)
    cbn [step]. destruct i as [|j].
    + destruct p0 as [r|R|q|o'].
      * inversion Hphase as [| |? ? Hc0 Hbc Hbi]; subst.
        destruct (calm_settle env 0 o s (Listening r :: others) tr 1 [] _ eq_refl Hc0)
          as (p' & tr' & Hp' & ->).
        split; [done|]. cbn. exists p', others. split; [done|]. split; [done|].
        by apply phase_after.
      * unfold settle_process. cbn [pool lookup list_lookup].
        destruct R as [a| |w K]; [by split; [|exists (Testing (Returned a)), others]
                                 |by split; [|exists (Testing Thrown), others]|].
        destruct (due _ w o) as [o'|] eqn:Hdue;
          [|by split; [|exists (Testing (Suspended w K)), others]].
        assert (Hw : w ≠ WChannel) by (by intros ->).
        destruct (phase_settle env f s w K ws o' Hf Hphase Hw) as (s' & l & R' & Heq & Hph).
        unfold resume. cbn. rewrite Heq. split; [done|]. cbn.
        exists (park Testing R'), others. done.
      * inversion Hphase as [| |? ? Hc0 Hbc Hbi]; subst. done.
      * by split; [|exists (Over o'), others].
    + destruct (others !! j) as [p|] eqn:Hj.
      * assert (Hp : calm p) by (by eapply Forall_lookup_1).
        destruct (calm_settle env (S j) o s (p0 :: others) tr 1 ws p Hj Hp)
          as (p' & tr' & Hp' & ->).
        split; [done|]. cbn. exists p0, (<[j := p']> others). split; [done|].
        split; [|done]. by apply Forall_insert.
      * unfold settle_process. cbn [pool].
        change ((p0 :: others) !! S j) with (others !! j). rewrite Hj.
        by split; [|exists p0, others].
  - (* the element of the UI is there *)
    cbn [step]. split; [done|]. cbn. exists p0, others. split; [done|]. split; [done|].
    by eapply phase_ext; [..|exact Hphase].
Qed.

Lemma own_steps env f pg inputs :
  (∀ a, idle_async (f a)) →
  own_page env f pg → own_rounds env pg inputs = true →
  own_page env f (steps env pg inputs).
Proof.
  intros Hf. revert pg. induction inputs as [|i inputs IH]; intros pg Hpg Hin; [done|].
  cbn in Hin. apply andb_true_iff in Hin as [Hi Hin].
  cbn. apply IH; [by apply own_step|done].
Qed.

Lemma own_rounds_take env pg inputs n :
  own_rounds env pg inputs = true → own_rounds env pg (take n inputs) = true.
Proof.
  revert pg n. induction inputs as [|i inputs IH]; intros pg [|n] Hin; try done.
  cbn in *. apply andb_true_iff in Hin as [Hi Hin].
  apply andb_true_iff. split; [done|by apply IH].
Qed.

Lemma idle_open_rest a : idle_async (open_rest a).
Proof. apply idle_bind; [by apply idle_await|]. intros _. apply idle_ret. Qed.

Lemma own_open env files :
  isolate env ≠ Some false → NoDup files →
  own_page env open_rest (step env initial_page (Open files)).
Proof.
  intros Hiso Hnd. cbn [step].
  destruct (createTesters_isolated env files
              (set_runningFiles (λ _, list_to_set files) initial_store) Hiso)
    as (r & Heq & Hr).
  destruct (at_container_suspended env files r Hr) as (w & k & -> & Hw).
  destruct files as [|file files].
  - assert (Hopen : ∃ l, on_open env [] initial_store
      = (set_runningFiles (λ _, ∅) initial_store, l, Returned tt)).
    { unfold on_open, debug. destruct (debug_flag env); by eexists. }
    destruct Hopen as [l Hopen]. unfold start. cbn [mem initial_page]. rewrite Hopen.
    split; [done|]. cbn. eexists _, []. split; [done|]. split; [done|].
    apply phase_after; [done|cbn; lia|]. cbn. rewrite map_size_empty. lia.
  - assert (Hopen : ∃ l, on_open env (file :: files) initial_store
      = (set_runningFiles (λ _, list_to_set (file :: files)) initial_store, l,
         Suspended w (λ o s, then_stage open_rest (k o s)))).
    { unfold on_open, debug, awaited.
      destruct (debug_flag env); unfold mbind, async_bind, bind, emit, modify, mret,
        async_ret, ret; cbn [bind_stage]; cbv beta iota zeta;
        rewrite bool_decide_false by done; cbv beta iota zeta; cbn [bind_stage];
        rewrite Heq; cbn [bind_stage]; by eexists. }
    destruct Hopen as [l Hopen]. unfold start. cbn [mem initial_page]. rewrite Hopen.
    split; [done|]. cbn [pool mem waiting app]. eexists _, [].
    split; [reflexivity|]. split; [done|].
    assert (Hoff : on_channel (Suspended w (λ o s, then_stage open_rest (k o s))) = false)
      by (by destruct w).
    rewrite Hoff. cbn [park].
    eapply phase_before; [exact Hr|apply wraps_intro|done..].
Qed.

Lemma own_rounds_bound env files inputs n :
  isolate env ≠ Some false → NoDup files →
  own_rounds env (step env initial_page (Open files)) inputs = true →
  let s := mem (steps env initial_page (Open files :: take n inputs)) in
  length (children s) ≤ 1 ∧ size (iframes s) ≤ 1.
Proof.
  intros Hiso Hnd Hin. cbn zeta. cbn [steps foldl].
  pose proof (own_steps env open_rest _ (take n inputs) idle_open_rest
                (own_open env files Hiso Hnd) (own_rounds_take _ _ _ n Hin))
    as [_ (p0 & others & _ & _ & Hphase)].
  by eapply phase_bound.
Qed.




(** The same on the event loop: the three files of a headless page get
    their iframes in order, one per [done] message; and as long as no
    message comes, the first iframe stays alone. *)
Example isolated_run_in_order :
  let pg := steps headless initial_page
    [Open ["a"; "b"; "c"]; Settle 0 Resolved; Settle 0 Resolved;
     Message (IframeDoneEvent ["a"] "a"); Settle 0 Resolved;
     Message (IframeDoneEvent ["b"] "b"); Settle 0 Resolved;
     Message (IframeDoneEvent ["c"] "c")] in
  trace pg = [Appended "a" 0; Appended "b" 1; Appended "c" 2;
              Finalize true; Called RpcDone] ∧
  children (mem pg) = [2].
Proof. vm_compute. done. Qed.

Example isolated_run_waits :
  let pg := steps headless initial_page
    [Open ["a"; "b"; "c"]; Settle 0 Resolved; Settle 0 Resolved;
     Settle 0 Resolved; Message (IframeViewportEvent (integer 10) (integer 10) "a");
     Settle 0 Resolved; Settle 1 Resolved; Settle 0 Rejected] in
  trace pg = [Appended "a" 0; Posted (ViewportDone "a")] ∧ waiting pg = [0].
Proof. vm_compute. done. Qed.

(** ** Overlapping requests *)

(** C2 on the event loop: with three requests, of which the second and the
    third arrive during the run of the first, the runs of the second and of
    the third are active together. The third has reset the running files
    and, once both have gone on, has taken the iframe of the second off the
    page; both loops have a handler on the channel. *)
Theorem three_requests_two_passes :
  let pg := steps headless initial_page three_requests in
  let pg' := steps headless pg
               [Settle 6 Resolved; Settle 7 Resolved; Settle 6 Resolved; Settle 7 Resolved] in
  (active_passes pg = 2 ∧ runningFiles (mem pg) = {["c"]} ∧
   promiseTesters (mem pg) = Some 7) ∧
  (active_passes pg' = 2 ∧ waiting pg' = [6; 7] ∧
   trace pg' = [Appended "a" 0; Finalize true; Called RpcDone;
                Appended "b" 1; Appended "c" 2] ∧
   iframes (mem pg') !! "b" = None ∧ children (mem pg') = [2]).
Proof. vm_compute. done. Qed.

(** What the wrapper does secure: a request that found a run in flight does
    not move before the promise of that run has settled. *)
Lemma request_waits env i o files p pg :
  pool pg !! i = Some (Requesting (AwaitPrevious files (Some p))) →
  settled pg p = None →
  step env pg (Settle i o) = pg.
Proof.
  intros Hi Hp. cbn [step]. unfold settle_process. rewrite Hi.
  cbn [resume_request]. by rewrite Hp.
Qed.

(** With the second request alone, the wrapper does what it is there for:
    the second run starts when the first is over, and only then are the
    running files reset. *)
Example second_request_waits :
  let pg := steps headless initial_page two_requests in
  let pg' := steps headless pg [Message (IframeDoneEvent ["a"] "a"); Settle 3 Resolved] in
  (active_passes pg = 1 ∧ runningFiles (mem pg) = {["a"]} ∧
   pool pg !! 3 = Some (Requesting (AwaitPrevious ["b"] (Some 2)))) ∧
  (active_passes pg' = 1 ∧ runningFiles (mem pg') = {["b"]} ∧
   pool pg' !! 2 = Some (Over Resolved) ∧
   pool pg' !! 3 = Some (Requesting (AwaitOwn 5))).
Proof. vm_compute. done. Qed.

(** ** Every stretch of the module is a sequence of blocks *)

Lemma tame_bind_stage env {A B} (r : stage A) (f : A → async B) s :
  tame env r → (∀ a, tame_async env (f a)) →
  rtc (block env) s (bind_stage r f s).1.1 ∧ tame env (bind_stage r f s).2.
Proof.
  intros Hr Hf. revert s.
  induction Hr as [a| |w k Hmove Htame IH]; intros s; cbn [bind_stage].
  - apply Hf.
  - split; [done|constructor].
  - split; [done|]. constructor; intros o s'; specialize (Hmove o s');
      specialize (IH o s'); destruct (k o s') as [[s1 l1] r1]; cbn [fst snd] in *;
      specialize (IH s1); destruct (bind_stage r1 f s1) as [[s2 l2] r2];
      cbn [fst snd] in *; [by etrans; [exact Hmove|apply IH]|apply IH].
Qed.

Lemma tame_bind env {A B} (m : async A) (f : A → async B) :
  tame_async env m → (∀ a, tame_async env (f a)) → tame_async env (m ≫= f).
Proof.
  intros Hm Hf s. unfold mbind, async_bind, bind.
  destruct (Hm s) as [Hmove Htame]. destruct (m s) as [[s1 l1] r1]. cbn [fst snd] in *.
  destruct (tame_bind_stage env r1 f s1 Htame Hf) as [Hmove' Htame'].
  destruct (bind_stage r1 f s1) as [[s2 l2] r2]. cbn [fst snd] in *.
  split; [by etrans|done].
Qed.

Lemma tame_sync env {A} (m : async A) (f : store → store) :
  (∀ s, (m s).1.1 = f s ∧ ∃ a, (m s).2 = Returned a) →
  (∀ s, rtc (block env) s (f s)) → tame_async env m.
Proof.
  intros Hm Hf s. destruct (Hm s) as [-> [a ->]]. split; [apply Hf|constructor].
Qed.

Lemma tame_ret env {A} (a : A) : tame_async env (mret a).
Proof. intros s. split; [done|constructor]. Qed.

Lemma tame_throw env {A} : tame_async env (@throw A).
Proof. intros s. split; [done|constructor]. Qed.

Lemma tame_gets env {A} (f : store → A) : tame_async env (gets f).
Proof. intros s. split; [done|constructor]. Qed.

Lemma tame_emit env e : tame_async env (emit e).
Proof. intros s. split; [done|constructor]. Qed.

Lemma tame_await env w : tame_async env (await w).
Proof.
  intros s. split; [done|]. constructor; intros o s'; cbn; [done|].
  destruct o; constructor.
Qed.

Lemma tame_modify env f :
  (∀ s, rtc (block env) s (f s)) → tame_async env (modify f).
Proof. intros Hf s. split; [apply Hf|constructor]. Qed.

Lemma tame_finally_stage env {A} (r : stage A) (final : async unit) s :
  tame env r → tame_async env final →
  rtc (block env) s (finally_stage r final s).1.1 ∧ tame env (finally_stage r final s).2.
Proof.
  intros Hr Hf. revert s.
  induction Hr as [a| |w k Hmove Htame IH]; intros s; cbn [finally_stage].
  - apply tame_bind; [done|]. intros _. apply tame_ret.
  - apply tame_bind; [done|]. intros _. apply tame_throw.
  - split; [done|]. constructor; intros o s'; specialize (Hmove o s');
      specialize (IH o s'); destruct (k o s') as [[s1 l1] r1]; cbn [fst snd] in *;
      specialize (IH s1); destruct (finally_stage r1 final s1) as [[s2 l2] r2];
      cbn [fst snd] in *; [by etrans; [exact Hmove|apply IH]|apply IH].
Qed.

Lemma tame_try_finally env {A} (body : async A) (final : async unit) :
  tame_async env body → tame_async env final → tame_async env (try_finally body final).
Proof.
  intros Hb Hf s. unfold try_finally.
  destruct (Hb s) as [Hmove Htame]. destruct (body s) as [[s1 l1] r1]. cbn [fst snd] in *.
  destruct (tame_finally_stage env r1 final s1 Htame Hf) as [Hmove' Htame'].
  destruct (finally_stage r1 final s1) as [[s2 l2] r2]. cbn [fst snd] in *.
  split; [by etrans|done].
Qed.

Lemma tame_awaited env {A} (m : async A) : tame_async env m → tame_async env (awaited m).
Proof.
  intros Hm. apply tame_bind; [done|]. intros a.
  apply tame_bind; [apply tame_await|]. intros _. apply tame_ret.
Qed.

Lemma tame_awaited_call env c : tame_async env (awaited_call c).
Proof. apply tame_bind; [apply tame_emit|]. intros _. apply tame_await. Qed.

Lemma tame_debug env args : tame_async env (debug env args).
Proof. unfold debug. destruct (debug_flag env); [apply tame_emit|apply tame_ret]. Qed.

Lemma tame_setIframeViewport env iframe width height :
  tame_async env (setIframeViewport env iframe width height).
Proof.
  unfold setIframeViewport. destruct (ui_api env); [apply tame_awaited_call|].
  apply tame_modify. intros s. apply rtc_once. constructor.
Qed.

Lemma tame_done env testFinished : tame_async env (done env testFinished).
Proof.
  apply tame_bind; [apply tame_emit|]. intros _. apply tame_try_finally.
  - apply tame_bind; [apply tame_awaited_call|]. intros _. apply tame_awaited_call.
  - destruct (testFinished && ui_api env); [apply tame_emit|apply tame_ret].
Qed.

Lemma createIframe_created file s :
  createIframe file s =
  (created_store file s, [Appended file (next_handle s)], Returned (next_handle s)).
Proof. apply createIframe_eq. Qed.

Lemma tame_createIframe env file : tame_async env (createIframe file).
Proof.
  intros s. rewrite createIframe_created. cbn [fst snd].
  split; [apply rtc_once; constructor|constructor].
Qed.

Lemma remove_then_delete id s :
  (remove_registered id;; modify (set_iframes (delete id))) s =
  (set_iframes (delete id) (detach id s), [], Returned tt).
Proof.
  unfold remove_registered, iframe_remove, detach. unfold_async. cbn.
  by destruct (iframes s !! id).
Qed.

Lemma tame_remove env id :
  tame_async env (remove_registered id;; modify (set_iframes (delete id))).
Proof.
  intros s. rewrite remove_then_delete. cbn [fst snd].
  split; [apply rtc_once; constructor|constructor].
Qed.

Lemma tame_listener env e : tame_async env (listener env e).
Proof.
  assert (Hrun : ∀ f, tame_async env (modify (set_runningFiles f))).
  { intros f. apply tame_modify. intros s. apply rtc_once. constructor. }
  assert (Hdefault : ∀ e',
    tame_async env
      (awaited_call (OnUnhandledError
         {| err_name := "Unexpected Event";
            err_message := "Unexpected event: " +:+ event_type e' |} "Unexpected Event");;
       awaited (done env false))).
  { intros e'. apply tame_bind; [apply tame_awaited_call|]. intros _.
    apply tame_awaited, tame_done. }
  unfold listener. apply tame_bind; [apply tame_debug|]. intros _.
  destruct e as [filenames id|error errorType files id|width height id|ok|type];
    [| | |apply Hdefault..].
  - apply tame_bind; [apply Hrun|]. intros _.
    apply tame_bind; [apply tame_gets|]. intros size.
    destruct (bool_decide (size = 0)); [|apply tame_remove].
    apply tame_bind; [|intros _; apply tame_awaited, tame_done].
    destruct (ui_api env && _); [|apply tame_ret].
    destruct (last filenames); [apply tame_emit|apply tame_ret].
  - apply tame_bind.
    { apply tame_modify. intros s. apply rtc_once. constructor. }
    intros _. apply tame_bind; [apply tame_awaited_call|]. intros _.
    apply tame_bind; [destruct (bool_decide _); apply Hrun|]. intros _.
    apply tame_bind; [apply tame_gets|]. intros size.
    destruct (bool_decide (size = 0)); [apply tame_awaited, tame_done|apply tame_ret].
  - apply tame_bind; [apply tame_gets|]. intros [iframe|].
    + apply tame_bind; [apply tame_awaited, tame_setIframeViewport|].
      intros _. apply tame_emit.
    + apply tame_bind; [apply tame_emit|]. intros _. apply tame_awaited_call.
Qed.

Lemma tame_isolated_loop env width height files :
  tame_async env (isolated_loop env width height files).
Proof.
  induction files as [|file files IH]; [apply tame_ret|].
  cbn [isolated_loop]. apply tame_bind; [apply tame_createIframe|]. intros iframe.
  apply tame_bind; [apply tame_awaited, tame_setIframeViewport|]. intros _.
  apply tame_bind; [apply tame_await|]. intros _. exact IH.
Qed.

Lemma after_container_torn_down env files s :
  after_container env files s =
  (if bool_decide (isolate env = Some false)
   then iframe ← createIframe ID_ALL;
        awaited (setIframeViewport env iframe (viewport env).1 (viewport env).2)
   else isolated_loop env (viewport env).1 (viewport env).2 files) (torn_down env s).
Proof.
  unfold after_container, torn_down, remove_all_iframes.
  destruct (viewport env) as [w h]. cbn [fst snd].
  generalize (if bool_decide (isolate env = Some false)
              then iframe ← createIframe ID_ALL; awaited (setIframeViewport env iframe w h)
              else isolated_loop env w h files).
  intros X.
  destruct (browser_ui env); unfold_async; cbn;
    match goal with |- context [X ?x] => by destruct (X x) as [[? ?] ?] end.
Qed.

Lemma tame_after_container env files : tame_async env (after_container env files).
Proof.
  intros s. rewrite after_container_torn_down.
  assert (Hrest : tame_async env
    (if bool_decide (isolate env = Some false)
     then iframe ← createIframe ID_ALL;
          awaited (setIframeViewport env iframe (viewport env).1 (viewport env).2)
     else isolated_loop env (viewport env).1 (viewport env).2 files)).
  { destruct (bool_decide _); [|apply tame_isolated_loop].
    apply tame_bind; [apply tame_createIframe|]. intros iframe.
    apply tame_awaited, tame_setIframeViewport. }
  destruct (Hrest (torn_down env s)) as [Hmove Htame].
  split; [|done]. etrans; [|exact Hmove]. apply rtc_once. constructor.
Qed.

Lemma tame_getContainer env : tame_async env (getContainer env).
Proof.
  unfold getContainer. destruct (browser_ui env); [|apply tame_ret].
  apply tame_bind; [apply tame_gets|]. intros []; [apply tame_ret|apply tame_await].
Qed.

Lemma tame_createTesters env files : tame_async env (createTesters env files).
Proof.
  rewrite createTesters_unfold. apply tame_bind.
  { apply tame_modify. intros s. apply rtc_once. constructor. }
  intros _. apply tame_bind; [apply tame_awaited, tame_getContainer|].
  intros _. apply tame_after_container.
Qed.

Lemma tame_createTesters_finally env files :
  tame_async env (createTesters_finally env files).
Proof.
  apply tame_try_finally; [apply tame_createTesters|].
  apply tame_modify. intros s. apply rtc_once. constructor.
Qed.

Lemma tame_on_open env testFiles : tame_async env (on_open env testFiles).
Proof.
  apply tame_bind; [apply tame_debug|]. intros _. apply tame_bind.
  { apply tame_modify. intros s. apply rtc_once. constructor. }
  intros _. destruct (bool_decide _); [apply tame_ret|].
  apply tame_awaited, tame_createTesters.
Qed.

(** ** Every step of the event loop is a sequence of blocks *)

Lemma tame_park env role r :
  role = Listening ∨ role = Testing → tame env r → tame_process env (park role r).
Proof. intros [-> | ->] Hr; by destruct r. Qed.

Lemma start_moves env role m pg :
  role = Listening ∨ role = Testing → tame_async env m →
  Forall (tame_process env) (pool pg) →
  rtc (block env) (mem pg) (mem (start role m pg)) ∧
  Forall (tame_process env) (pool (start role m pg)).
Proof.
  intros Hrole Hm Hpool. unfold start. destruct (Hm (mem pg)) as [Hmove Htame].
  destruct (m (mem pg)) as [[s l] r]. cbn [fst snd mem pool] in *.
  split; [done|]. apply Forall_app. split; [done|].
  apply Forall_singleton. by apply tame_park.
Qed.

Lemma resume_moves env i o pg :
  Forall (tame_process env) (pool pg) →
  rtc (block env) (mem pg) (mem (resume i o pg)) ∧
  Forall (tame_process env) (pool (resume i o pg)).
Proof.
  intros Hpool. unfold resume.
  destruct (pool pg !! i) as [[[a| |w k]|[a| |w k]|q|o']|] eqn:Hi; try done.
  - pose proof (Forall_lookup_1 _ _ _ _ Hpool Hi) as Hk. cbn in Hk.
    inversion Hk as [| |? ? Hmove Htame]; subst.
    specialize (Hmove o (mem pg)). specialize (Htame o (mem pg)).
    destruct (k o (mem pg)) as [[s l] r]. cbn [fst snd mem pool] in *.
    split; [done|]. apply Forall_insert; [done|]. apply tame_park; auto.
  - pose proof (Forall_lookup_1 _ _ _ _ Hpool Hi) as Hk. cbn in Hk.
    inversion Hk as [| |? ? Hmove Htame]; subst.
    specialize (Hmove o (mem pg)). specialize (Htame o (mem pg)).
    destruct (k o (mem pg)) as [[s l] r]. cbn [fst snd mem pool] in *.
    split; [done|]. apply Forall_insert; [done|]. apply tame_park; auto.
Qed.

Lemma resume_request_moves env i q pg :
  Forall (tame_process env) (pool pg) →
  rtc (block env) (mem pg) (mem (resume_request env i q pg)) ∧
  Forall (tame_process env) (pool (resume_request env i q pg)).
Proof.
  intros Hpool. unfold resume_request. destruct q as [files p|p].
  - destruct (match p with Some p0 => settled pg p0 | None => Some Resolved end)
      as [[]|]; [| |done].
    + destruct (start_moves env Testing (createTesters_finally env files) pg)
        as [Hmove Htame]; [auto|apply tame_createTesters_finally|done|].
      cbn [mem pool with_mem with_pool]. split.
      * etrans; [exact Hmove|]. apply rtc_once. constructor.
      * by apply Forall_insert.
    + cbn [mem pool with_pool]. split; [done|]. by apply Forall_insert.
  - destruct (settled pg p); [|done].
    cbn [mem pool with_pool]. split; [done|]. by apply Forall_insert.
Qed.

Lemma iter_start_moves env n m pg :
  tame_async env m → Forall (tame_process env) (pool pg) →
  rtc (block env) (mem pg) (mem (Nat.iter n (start Listening m) pg)) ∧
  Forall (tame_process env) (pool (Nat.iter n (start Listening m) pg)).
Proof.
  intros Hm Hpool. induction n as [|n [Hmove Htame]]; [done|]. cbn [Nat.iter nat_rect].
  destruct (start_moves env Listening m (Nat.iter n (start Listening m) pg))
    as [Hmove' Htame']; auto.
  split; [by etrans|done].
Qed.

Lemma foldl_resume_moves env handlers pg :
  Forall (tame_process env) (pool pg) →
  rtc (block env) (mem pg) (mem (foldl (λ pg i, resume i Resolved pg) pg handlers)) ∧
  Forall (tame_process env) (pool (foldl (λ pg i, resume i Resolved pg) pg handlers)).
Proof.
  revert pg. induction handlers as [|i handlers IH]; intros pg Hpool; [done|].
  cbn [foldl]. destruct (resume_moves env i Resolved pg Hpool) as [Hmove Htame].
  destruct (IH _ Htame) as [Hmove' Htame']. split; [by etrans|done].
Qed.

Lemma step_moves env pg i :
  Forall (tame_process env) (pool pg) →
  rtc (block env) (mem pg) (mem (step env pg i)) ∧
  Forall (tame_process env) (pool (step env pg i)).
Proof.
  intros Hpool. destruct i as [testFiles|files|e|i o|]; cbn [step].
  - match goal with |- context [start Testing _ ?pg'] =>
      apply (start_moves env Testing (on_open env testFiles) pg') end;
      auto using tame_on_open.
  - cbn [mem pool with_pool]. split; [done|]. apply Forall_app. split; [done|].
    by apply Forall_singleton.
  - unfold deliver.
    destruct (iter_start_moves env (listeners pg) (listener env e) pg)
      as [Hmove Htame]; [apply tame_listener|done|].
    destruct (completes e); [|done].
    match goal with |- context [foldl _ ?pg' ?hs] =>
      destruct (foldl_resume_moves env hs pg') as [Hmove' Htame'] end; [done|].
    split; [|done]. etrans; [exact Hmove|exact Hmove'].
  - unfold settle_process.
    destruct (pool pg !! i) as [[[a| |w k]|[a| |w k]|q|o']|] eqn:Hi; try done.
    + destruct (due pg w o); [by apply resume_moves|done].
    + destruct (due pg w o); [by apply resume_moves|done].
    + by apply resume_request_moves.
  - cbn [mem pool with_mem]. split; [|done]. apply rtc_once. constructor.
Qed.

Lemma steps_moves env pg inputs :
  Forall (tame_process env) (pool pg) →
  rtc (block env) (mem pg) (mem (steps env pg inputs)) ∧
  Forall (tame_process env) (pool (steps env pg inputs)).
Proof.
  revert pg. induction inputs as [|i inputs IH]; intros pg Hpool; [done|].
  cbn [steps foldl]. destruct (step_moves env pg i Hpool) as [Hmove Htame].
  destruct (IH _ Htame) as [Hmove' Htame']. split; [by etrans|done].
Qed.

Lemma stable_rtc env Inv s s' :
  stable env Inv → rtc (block env) s s' → Inv s → Inv s'.
Proof. intros Hst. induction 1; eauto. Qed.

Lemma steps_stable env Inv earlier later :
  stable env Inv →
  Inv (mem (steps env initial_page earlier)) →
  Inv (mem (steps env initial_page (earlier ++ later))).
Proof.
  intros Hst Hinv. unfold steps. rewrite foldl_app.
  destruct (steps_moves env initial_page earlier) as [_ Htame]; [constructor|].
  destruct (steps_moves env (steps env initial_page earlier) later Htame) as [Hmove _].
  by eapply stable_rtc.
Qed.

(** ** What the blocks keep *)

Lemma registry_ok_ext s s' :
  iframes s' = iframes s → children s' = children s → next_handle s' = next_handle s →
  registry_ok s → registry_ok s'.
Proof. intros Hi Hc Hn [? ? ? ?]. split; rewrite ?Hi, ?Hc, ?Hn; done. Qed.

Lemma page_ok_ext s s' :
  iframes s' = iframes s → children s' = children s → next_handle s' = next_handle s →
  page_ok s → page_ok s'.
Proof.
  intros Hi Hc Hn [Hreg Hatt]. split; [by eapply registry_ok_ext|].
  by rewrite Hi, Hc.
Qed.

Lemma in_values (m : gmap string Handle) h :
  h ∈ (map_to_list m).*2 ↔ ∃ id, m !! id = Some h.
Proof.
  rewrite list_elem_of_fmap. split.
  - intros ([id h'] & -> & Hin). exists id. by apply elem_of_map_to_list.
  - intros (id & Hid). exists (id, h). split; [done|]. by apply elem_of_map_to_list.
Qed.

Lemma registry_ok_torn_down env s : registry_ok s → registry_ok (torn_down env s).
Proof.
  intros Hok. unfold torn_down. apply registry_ok_iframes; [intros m; apply map_empty_subseteq|].
  apply registry_ok_children.
  - intros l. apply NoDup_filter.
  - intros l h Hh. by apply list_elem_of_filter in Hh as [_ ?].
  - destruct (browser_ui env); [|done]. apply registry_ok_children.
    + intros; constructor.
    + intros l h Hh. by apply elem_of_nil in Hh.
    + by eapply registry_ok_ext; [..|exact Hok].
Qed.

Lemma page_ok_stable env : stable env page_ok.
Proof.
  intros s s' Hblock [Hreg Hatt].
  destruct Hblock as [f s|p s|h w hg s|file s|id s|id s|s|b s];
    try (by eapply page_ok_ext; [..|by split]).
  - destruct (created_store_spec file s) as (Hi & Hc & Hn). split.
    + pose proof (registry_ok_create file s Hreg) as H. unfold apply_op in H.
      by rewrite run_createIframe in H.
    + intros id h. rewrite Hi, Hc, lookup_insert. case_decide as Hid.
      * intros [= <-]. apply elem_of_app. right. by left.
      * intros Hh. apply elem_of_app. left.
        destruct (iframes s !! file) as [old|] eqn:Hold; [|by eapply Hatt].
        apply list_elem_of_filter. split; [|by eapply Hatt].
        intros ->. destruct Hreg as [_ _ _ Hinj]. by pose proof (Hinj _ _ _ Hold Hh).
  - split.
    + rewrite <- apply_remove. by apply registry_ok_apply.
    + intros id' h. cbn [iframes set_iframes]. rewrite iframes_detach.
      intros Hh. destruct (decide (id' = id)) as [->|Hne];
        [by rewrite lookup_delete_eq in Hh|].
      rewrite lookup_delete_ne in Hh by done.
      cbn [children set_iframes]. unfold detach.
      destruct (iframes s !! id) as [old|] eqn:Hold; [|by eapply Hatt].
      cbn [children set_children]. apply list_elem_of_filter. split; [|by eapply Hatt].
      intros ->. destruct Hreg as [_ _ _ Hinj]. by pose proof (Hinj _ _ _ Hold Hh).
  - split.
    + by apply (registry_ok_apply s (OpForget id)).
    + intros id' h. cbn [iframes children set_iframes]. intros Hh.
      apply (Hatt id'). eapply lookup_weaken; [exact Hh|apply delete_subseteq].
  - split; [by apply registry_ok_torn_down|].
    intros id h. unfold torn_down. cbn [iframes set_iframes]. by rewrite lookup_empty.
Qed.

Lemma page_ok_initial : page_ok initial_store.
Proof.
  split; [apply registry_ok_initial|]. intros id h. cbn. by rewrite lookup_empty.
Qed.

Lemma orphan_ext h s s' :
  iframes s' = iframes s → children s' = children s → next_handle s' = next_handle s →
  orphan h s → orphan h s'.
Proof. intros Hi Hc Hn [? ? ?]. split; rewrite ?Hi, ?Hc, ?Hn; done. Qed.

Lemma orphan_stable env h : browser_ui env = false → stable env (orphan h).
Proof.
  intros Hui s s' Hblock [Hin Hforgot Hmade].
  destruct Hblock as [f s|p s|h' w hg s|file s|id s|id s|s|b s];
    try (by eapply orphan_ext; [..|by split]).
  - destruct (created_store_spec file s) as (Hi & Hc & Hn). split.
    + rewrite Hc. apply elem_of_app. left.
      destruct (iframes s !! file) as [old|] eqn:Hold; [|done].
      apply list_elem_of_filter. split; [|done]. intros ->. by eapply Hforgot.
    + intros id. rewrite Hi, lookup_insert. case_decide; [|apply Hforgot].
      intros [= ?]. lia.
    + rewrite Hn. lia.
  - split; cbn [iframes children next_handle set_iframes].
    + unfold detach. destruct (iframes s !! id) as [old|] eqn:Hold; [|done].
      cbn [children set_children]. apply list_elem_of_filter. split; [|done].
      intros ->. by eapply Hforgot.
    + intros id' Hh. rewrite iframes_detach in Hh.
      apply (Hforgot id'). eapply lookup_weaken; [exact Hh|apply delete_subseteq].
    + unfold detach. by destruct (iframes s !! id).
  - split; cbn [iframes children next_handle set_iframes]; [done| |done].
    intros id' Hh. apply (Hforgot id').
    eapply lookup_weaken; [exact Hh|apply delete_subseteq].
  - unfold torn_down. rewrite Hui. split; cbn [iframes children next_handle set_iframes set_children].
    + apply list_elem_of_filter. split; [|done].
      rewrite in_values. intros (id & Hid). by eapply Hforgot.
    + intros id. by rewrite lookup_empty.
    + done.
Qed.

(** * Further properties *)

(** ** On every schedule *)

(** X1: whatever the page receives, and in whatever order its activations
    go on, every handle of the registry is the handle of an iframe that is
    on the page, made by an earlier [createElement]. *)
Theorem registered_iframes_on_page env inputs :
  let s := mem (steps env initial_page inputs) in
  ∀ id h, iframes s !! id = Some h → h ∈ children s ∧ h < next_handle s.
Proof.
  cbn zeta. intros id h Hh.
  pose proof (steps_stable env page_ok [] inputs (page_ok_stable env) page_ok_initial)
    as [[_ _ Hmade _] Hatt].
  split; [by eapply Hatt|by eapply Hmade].
Qed.

Lemma registered_iframes_on_page_witness :
  let inputs := [Open ["a"; "b"]; Settle 0 Resolved; Settle 0 Resolved] in
  let s := mem (steps headless initial_page inputs) in
  iframes s !! "a" = Some 0 ∧ 0 ∈ children s ∧ 0 < next_handle s.
Proof.
  cbn zeta.
  assert (Hh : iframes (mem (steps headless initial_page
             [Open ["a"; "b"]; Settle 0 Resolved; Settle 0 Resolved])) !! "a" = Some 0)
    by (vm_compute; reflexivity).
  split; [exact Hh|].
  exact (registered_iframes_on_page headless
           [Open ["a"; "b"]; Settle 0 Resolved; Settle 0 Resolved] "a" 0 Hh).
Defined.

(** X2: on every schedule, no iframe is twice on the page and no iframe is
    kept under two identifiers. *)
Theorem registry_never_shares env inputs :
  let s := mem (steps env initial_page inputs) in
  NoDup (children s) ∧
  ∀ id1 id2 h, iframes s !! id1 = Some h → iframes s !! id2 = Some h → id1 = id2.
Proof.
  cbn zeta.
  pose proof (steps_stable env page_ok [] inputs (page_ok_stable env) page_ok_initial)
    as [[Hnd _ _ Hinj] _].
  done.
Qed.

(** X3: without the UI ([config.browser.ui] off), an iframe that is on the
    page while the registry has forgotten it stays on the page, forgotten,
    whatever happens next: no later run removes it. *)
Theorem forgotten_iframe_stays env h earlier later :
  browser_ui env = false →
  orphan h (mem (steps env initial_page earlier)) →
  orphan h (mem (steps env initial_page (earlier ++ later))).
Proof. intros Hui. apply steps_stable. by apply orphan_stable. Qed.

Lemma forgotten_iframe_stays_witness :
  let error := {| err_name := "Error"; err_message := "boom" |} in
  let earlier := [Open ["a"; "b"]; Settle 0 Resolved; Settle 0 Resolved;
                  Message (IframeErrorEvent error "Unhandled Error" ["a"] "a")] in
  let later := [Message (IframeDoneEvent ["b"] "b"); Request ["a"; "b"];
                Settle 3 Resolved; Settle 4 Resolved; Settle 4 Resolved] in
  browser_ui headless = false ∧
  orphan 0 (mem (steps headless initial_page earlier)) ∧
  orphan 0 (mem (steps headless initial_page (earlier ++ later))).
Proof.
  cbn zeta.
  assert (Horphan : orphan 0 (mem (steps headless initial_page
    [Open ["a"; "b"]; Settle 0 Resolved; Settle 0 Resolved;
     Message (IframeErrorEvent {| err_name := "Error"; err_message := "boom" |}
                "Unhandled Error" ["a"] "a")]))).
  { split.
    - vm_compute. left.
    - intros id.
      assert (Hreg : iframes (mem (steps headless initial_page
        [Open ["a"; "b"]; Settle 0 Resolved; Settle 0 Resolved;
         Message (IframeErrorEvent {| err_name := "Error"; err_message := "boom" |}
                    "Unhandled Error" ["a"] "a")])) = {["b" := 1]})
        by (vm_compute; reflexivity).
      rewrite Hreg, lookup_singleton. case_decide; congruence.
    - vm_compute. lia. }
  split; [reflexivity|]. split; [exact Horphan|].
  exact (forgotten_iframe_stays headless 0 _ _ eq_refl Horphan).
Defined.

(** ** The listener, further *)

Lemma error_event_page env o error errorType files id s :
  let s' := store_after (run o (listener env (IframeErrorEvent error errorType files id)) s) in
  iframes s' = delete id (iframes s) ∧ children s' = children s ∧
  document s' = document s ∧ next_handle s' = next_handle s.
Proof.
  cbn zeta. rewrite run_listener_error. cbn zeta.
  destruct (o _); [|done]. by repeat case_bool_decide.
Qed.

(** X4: the [error] branch takes the handle of its id out of the registry
    and leaves the page as it is: the iframe that reported the error is not
    removed, however the report to the host settles. *)
Theorem error_event_keeps_page env o error errorType files id s :
  let s' := store_after (run o (listener env (IframeErrorEvent error errorType files id)) s) in
  iframes s' = delete id (iframes s) ∧ children s' = children s ∧
  document s' = document s ∧ next_handle s' = next_handle s.
Proof. apply error_event_page. Qed.

(** X5: the [done] branch, when files are still running, takes the iframe
    kept under the event's id off the page; when no file is running any
    more, it leaves the page as it is (the last iframe is kept). *)
Theorem done_event_page env o filenames id h s :
  iframes s !! id = Some h →
  let s' := store_after (run o (listener env (IframeDoneEvent filenames id)) s) in
  if bool_decide (runningFiles s' = ∅)
  then children s' = children s
  else (h ∉ children s') ∧ ∀ h', h' ≠ h → h' ∈ children s' ↔ h' ∈ children s.
Proof.
  intros Hh. cbn zeta. rewrite run_listener_done. cbn zeta.
  cbn [runningFiles set_runningFiles].
  destruct (bool_decide (size (runningFiles s ∖ list_to_set filenames) = 0)) eqn:Hsz;
    [apply bool_decide_eq_true in Hsz|apply bool_decide_eq_false in Hsz];
    rewrite size_zero in Hsz; rename Hsz into Hempty;
    unfold store_after; cbn [fst snd].
  - cbn [runningFiles set_runningFiles]. by rewrite bool_decide_true.
  - cbn [runningFiles set_iframes]. rewrite runningFiles_detach.
    cbn [runningFiles set_runningFiles]. rewrite bool_decide_false by done.
    unfold detach. cbn [iframes set_runningFiles]. rewrite Hh.
    cbn [children set_iframes set_children set_runningFiles]. split.
    + intros Hin. by apply list_elem_of_filter in Hin as [? _].
    + intros h' Hne. rewrite list_elem_of_filter. naive_solver.
Qed.

Lemma done_event_page_witness :
  let s := store_with ["a"; "b"] [("a", 0)] in
  iframes s !! "a" = Some 0 ∧
  let s' := store_after (run all_resolve (listener headless (IframeDoneEvent ["a"] "a")) s) in
  if bool_decide (runningFiles s' = ∅)
  then children s' = children s
  else (0 ∉ children s') ∧ ∀ h', h' ≠ 0 → h' ∈ children s' ↔ h' ∈ children s.
Proof.
  split; [reflexivity|].
  exact (done_event_page headless all_resolve ["a"] "a" 0
           (store_with ["a"; "b"] [("a", 0)]) eq_refl).
Defined.

(** X6: when the report of the error to the host is rejected, the [error]
    branch stops there: the handle is out of the registry, but the running
    files are as before and [done] is not entered, whatever the id. *)
Theorem error_event_report_rejected env o error errorType files id s :
  o (OnUnhandledError error errorType) = Rejected →
  let r := run o (listener env (IframeErrorEvent error errorType files id)) s in
  result_of r = None ∧
  runningFiles (store_after r) = runningFiles s ∧
  iframes (store_after r) = delete id (iframes s) ∧
  finalize_calls (effects_of r) = [] ∧
  reports (effects_of r) = [(error, errorType)].
Proof.
  intros Ho. cbn zeta. rewrite run_listener_error. cbn zeta. rewrite Ho.
  unfold result_of, store_after, effects_of. cbn [fst snd].
  by autorewrite with observe.
Qed.

Lemma error_event_report_rejected_witness :
  let error := {| err_name := "Error"; err_message := "boom" |} in
  all_reject (OnUnhandledError error "Unhandled Error") = Rejected ∧
  let s := store_with ["x"; "y"] [(ID_ALL, 0)] in
  let r := run all_reject
             (listener shared (IframeErrorEvent error "Unhandled Error" [] ID_ALL)) s in
  result_of r = None ∧
  runningFiles (store_after r) = runningFiles s ∧
  iframes (store_after r) = delete ID_ALL (iframes s) ∧
  finalize_calls (effects_of r) = [] ∧
  reports (effects_of r) = [(error, "Unhandled Error")].
Proof.
  split; [reflexivity|].
  exact (error_event_report_rejected shared all_reject
           {| err_name := "Error"; err_message := "boom" |} "Unhandled Error" [] ID_ALL
           (store_with ["x"; "y"] [(ID_ALL, 0)]) eq_refl).
Defined.

(** X7: with a UI, when the UI's [setIframeViewport] is rejected, a
    [viewport] event of a registered id is not acknowledged at all: neither
    [viewport:done] nor [viewport:fail] is posted, nothing is reported to
    the host, and the store is as before. *)
Theorem viewport_event_ui_rejected env o width height id h s :
  ui_api env = true →
  iframes s !! id = Some h →
  o (UiSetIframeViewport width height) = Rejected →
  let r := run o (listener env (IframeViewportEvent width height id)) s in
  result_of r = None ∧ posts (effects_of r) = [] ∧ reports (effects_of r) = [] ∧
  store_after r = s.
Proof.
  intros Hui Hh Ho. cbn zeta. rewrite run_listener_viewport. cbn zeta.
  rewrite Hh, Hui, Ho. unfold result_of, store_after, effects_of. cbn [fst snd].
  by autorewrite with observe.
Qed.

Lemma viewport_event_ui_rejected_witness :
  ui_api with_ui = true ∧
  let s := store_with ["a"] [("a", 0)] in
  iframes s !! "a" = Some 0 ∧
  all_reject (UiSetIframeViewport (integer 800) (integer 600)) = Rejected ∧
  let r := run all_reject (listener with_ui (IframeViewportEvent (integer 800) (integer 600) "a")) s in
  result_of r = None ∧ posts (effects_of r) = [] ∧ reports (effects_of r) = [] ∧
  store_after r = s.
Proof.
  split; [reflexivity|]. split; [reflexivity|]. split; [reflexivity|].
  exact (viewport_event_ui_rejected with_ui all_reject (integer 800) (integer 600) "a" 0
           (store_with ["a"] [("a", 0)]) eq_refl eq_refl eq_refl).
Defined.

Lemma run_listener_unlisted env o e s :
  match e with IframeViewportChannelEvent _ | UnknownEvent _ => True | _ => False end →
  store_after (run o (listener env e) s) = s.
Proof.
  destruct e as [| | |ok|type]; try done; intros _;
    unfold listener; run_simpl; destruct (o _); by run_simpl.
Qed.

(** X8: the listener never makes an iframe, never puts a handle into the
    registry, never adds a running file, and leaves [promiseTesters] alone:
    whatever the event and however the awaited calls settle, the registry
    and the running files can only lose entries and the page only iframes. *)
Theorem listener_only_removes env o e s :
  let s' := store_after (run o (listener env e) s) in
  runningFiles s' ⊆ runningFiles s ∧ iframes s' ⊆ iframes s ∧
  (∀ h, h ∈ children s' → h ∈ children s) ∧
  next_handle s' = next_handle s ∧ promiseTesters s' = promiseTesters s.
Proof.
  cbn zeta. destruct e as [filenames id|error errorType files id|width height id|ok|type].
  - rewrite run_listener_done. cbn zeta. case_bool_decide; unfold store_after; cbn [fst snd].
    + cbn. split; [set_solver|done].
    + unfold detach. cbn [iframes set_runningFiles].
      destruct (iframes s !! id); cbn;
        (split; [set_solver|]); (split; [apply delete_subseteq|]); (split; [|done]);
        [|done].
      intros h Hh. by apply list_elem_of_filter in Hh as [_ ?].
  - destruct (error_event_store env o error errorType files id s) as [Hi Hr].
    destruct (error_event_page env o error errorType files id s) as (_ & Hc & _ & Hn).
    cbn zeta in *. rewrite Hi, Hr, Hc, Hn.
    split; [destruct (o _); [case_bool_decide|]; set_solver|].
    split; [apply delete_subseteq|]. split; [done|]. split; [done|].
    rewrite run_listener_error. cbn zeta. destruct (o _); [|done].
    by repeat case_bool_decide.
  - rewrite run_listener_viewport. cbn zeta.
    destruct (iframes s !! id); [|done].
    destruct (ui_api env); [by destruct (o _)|done].
  - by rewrite run_listener_unlisted.
  - by rewrite run_listener_unlisted.
Qed.

Lemma done_event_finalizes env o filenames id s :
  let r := run o (listener env (IframeDoneEvent filenames id)) s in
  runningFiles (store_after r) = runningFiles s ∖ list_to_set filenames ∧
  finalize_calls (effects_of r) =
    (if bool_decide (runningFiles (store_after r) = ∅) then [true] else []).
Proof.
  cbn zeta. destruct (done_event_store env o filenames id s) as [Hrun _].
  cbn zeta in Hrun. rewrite Hrun. split; [done|].
  rewrite run_listener_done. cbn zeta. cbn [runningFiles set_runningFiles].
  rewrite (bool_decide_ext _ (runningFiles s ∖ list_to_set filenames = ∅))
    by apply size_zero.
  case_bool_decide; unfold effects_of; cbn [fst snd]; by autorewrite with observe.
Qed.

Lemma store_ext s t :
  iframes s = iframes t → runningFiles s = runningFiles t →
  promiseTesters s = promiseTesters t → document s = document t →
  next_handle s = next_handle t → children s = children t →
  container_class s = container_class t → tester_ui s = tester_ui t → s = t.
Proof. destruct s, t. cbn. congruence. Qed.

Lemma done_event_store_after env o filenames id s :
  store_after (run o (listener env (IframeDoneEvent filenames id)) s) =
  if bool_decide (runningFiles s ∖ list_to_set filenames = ∅)
  then set_runningFiles (λ r, r ∖ list_to_set filenames) s
  else set_iframes (delete id)
         (detach id (set_runningFiles (λ r, r ∖ list_to_set filenames) s)).
Proof.
  rewrite run_listener_done. cbn zeta. cbn [runningFiles set_runningFiles].
  rewrite (bool_decide_ext _ (runningFiles s ∖ list_to_set filenames = ∅))
    by apply size_zero.
  by case_bool_decide.
Qed.

(** X9: a [done] event that comes a second time leaves the store as the
    first left it, and enters [done] as often as the first did: a repeated
    [done] event at the end of a run finalizes the run again. *)
Theorem done_event_repeated env o filenames id s :
  let r1 := run o (listener env (IframeDoneEvent filenames id)) s in
  let r2 := run o (listener env (IframeDoneEvent filenames id)) (store_after r1) in
  store_after r2 = store_after r1 ∧
  finalize_calls (effects_of r2) = finalize_calls (effects_of r1).
Proof.
  cbn zeta.
  assert (Htwice : (runningFiles s ∖ list_to_set filenames) ∖ list_to_set filenames
                   = runningFiles s ∖ list_to_set filenames) by set_solver.
  assert (Hstore :
    store_after (run o (listener env (IframeDoneEvent filenames id))
      (store_after (run o (listener env (IframeDoneEvent filenames id)) s)))
    = store_after (run o (listener env (IframeDoneEvent filenames id)) s)).
  { rewrite (done_event_store_after env o filenames id
               (store_after (run o (listener env (IframeDoneEvent filenames id)) s))).
    rewrite (done_event_store_after env o filenames id s).
    destruct (bool_decide (runningFiles s ∖ list_to_set filenames = ∅)) eqn:Hb.
    - cbn [runningFiles set_runningFiles]. rewrite Htwice, Hb.
      apply store_ext; try reflexivity. exact Htwice.
    - cbn [runningFiles set_iframes]. rewrite runningFiles_detach.
      cbn [runningFiles set_runningFiles]. rewrite Htwice, Hb.
      unfold detach. cbn [iframes set_iframes set_runningFiles].
      destruct (iframes s !! id) as [h|] eqn:Hh; cbn [iframes set_children];
        rewrite lookup_delete_eq; apply store_ext; try reflexivity;
        cbn [iframes runningFiles set_iframes set_runningFiles set_children];
        first [exact Htwice | apply delete_delete_eq]. }
  split; [exact Hstore|].
  destruct (done_event_finalizes env o filenames id s) as [_ Hf1].
  destruct (done_event_finalizes env o filenames id
              (store_after (run o (listener env (IframeDoneEvent filenames id)) s)))
    as [_ Hf2].
  cbn zeta in *. rewrite Hf2, Hf1. by rewrite Hstore.
Qed.

Lemma selections_app l1 l2 : selections (l1 ++ l2) = selections l1 ++ selections l2.
Proof. apply omap_app. Qed.

Lemma selections_debug env e : selections (debug_effects env e) = [].
Proof. unfold debug_effects. by destruct (debug_flag env). Qed.

Lemma selections_done env o b : selections (done_effects env o b) = [].
Proof.
  unfold done_effects. destruct (o RpcDone), (b && ui_api env); reflexivity.
Qed.

(** X10: a [done] event has the UI select a file only when it ends the
    run, there is a UI, and the event names more than one file; the file is
    then the last one named. A [done] event of one file, as an isolated
    iframe sends, never changes the selection. *)
Theorem done_event_selects env o filenames id s :
  let r := run o (listener env (IframeDoneEvent filenames id)) s in
  selections (effects_of r) =
    if ui_api env && bool_decide (1 < length filenames)
       && bool_decide (runningFiles (store_after r) = ∅)
    then match last filenames with
         | Some file => [generateFileId env file]
         | None => []
         end
    else [].
Proof.
  cbn zeta. destruct (done_event_store env o filenames id s) as [Hrun _].
  cbn zeta in Hrun. rewrite Hrun.
  rewrite run_listener_done. cbn zeta. cbn [runningFiles set_runningFiles].
  rewrite (bool_decide_ext _ (runningFiles s ∖ list_to_set filenames = ∅))
    by apply size_zero.
  case_bool_decide; unfold effects_of; cbn [fst snd];
    rewrite ?selections_app, ?selections_debug, ?selections_done, ?andb_false_r;
    [|done].
  rewrite andb_true_r, app_nil_r. unfold selection.
  destruct (ui_api env && _); [|done]. by destruct (last filenames).
Qed.

(** ** [done], further *)

(** X11: [done] awaits [rpcDone] and then [finishBrowserTests], which it
    does not call when [rpcDone] is rejected; it is fulfilled exactly when
    both resolve, the [finally] passing the rejection on; it tells the UI
    exactly when asked to and there is a UI; it leaves the store alone. *)
Theorem done_flushes_in_order env o testFinished s :
  let r := run o (done env testFinished) s in
  flushes (effects_of r) =
    RpcDone :: match o RpcDone with Resolved => [FinishBrowserTests] | Rejected => [] end ∧
  (result_of r = Some tt ↔ o RpcDone = Resolved ∧ o FinishBrowserTests = Resolved) ∧
  ui_finishes (effects_of r) = (if testFinished && ui_api env then 1 else 0) ∧
  store_after r = s.
Proof.
  cbn zeta. rewrite run_done. unfold effects_of, result_of, store_after. cbn [fst snd].
  rewrite flushes_done, ui_finishes_done. unfold done_result.
  split; [done|]. split; [|done].
  destruct (o RpcDone), (o FinishBrowserTests); naive_solver.
Qed.

(** ** [createTesters], run to its end *)

Lemma run_getContainer env o s : run o (awaited (getContainer env)) s = (s, [], Some tt).
Proof.
  rewrite run_awaited. unfold getContainer. destruct (browser_ui env); [|done].
  run_simpl. by destruct (tester_ui s).
Qed.

Lemma run_after_container env o files s :
  run o (after_container env files) s =
  run o (if bool_decide (isolate env = Some false)
         then iframe ← createIframe ID_ALL;
              awaited (setIframeViewport env iframe (viewport env).1 (viewport env).2)
         else isolated_loop env (viewport env).1 (viewport env).2 files)
        (torn_down env s).
Proof. by rewrite !run_unfold, after_container_torn_down. Qed.

Lemma run_createTesters env o files s :
  run o (createTesters env files) s =
  run o (if bool_decide (isolate env = Some false)
         then iframe ← createIframe ID_ALL;
              awaited (setIframeViewport env iframe (viewport env).1 (viewport env).2)
         else isolated_loop env (viewport env).1 (viewport env).2 files)
        (torn_down env (set_runningFiles (λ _, list_to_set files) s)).
Proof.
  rewrite createTesters_unfold. rewrite run_bind, run_modify. cbn [then_run].
  rewrite run_bind, run_getContainer. cbn [then_run].
  rewrite run_after_container.
  by destruct (run o _ _) as [[? ?] ?].
Qed.

Lemma run_setIframeViewport env o iframe width height s :
  run o (awaited (setIframeViewport env iframe width height)) s =
  if ui_api env
  then (s, [Called (UiSetIframeViewport width height)],
        resolved (o (UiSetIframeViewport width height)))
  else (set_style env iframe width height s, [], Some tt).
Proof.
  rewrite run_awaited. unfold setIframeViewport.
  destruct (ui_api env); [apply run_awaited_call|done].
Qed.

Lemma run_isolated_loop_result env o width height files s :
  result_of (run o (isolated_loop env width height files) s) =
  if ui_api env && bool_decide (files ≠ [])
  then resolved (o (UiSetIframeViewport width height)) else Some tt.
Proof.
  revert s. induction files as [|file files IH]; intros s.
  - cbn [isolated_loop]. rewrite run_ret. by rewrite andb_false_r.
  - cbn [isolated_loop]. rewrite run_bind, run_createIframe. cbn [then_run].
    rewrite run_bind, run_setIframeViewport.
    rewrite (bool_decide_true (file :: files ≠ [])) by done. rewrite andb_true_r.
    destruct (ui_api env) eqn:Hui; cbn [then_run].
    + destruct (o (UiSetIframeViewport width height)) eqn:Ho; cbn [resolved then_run];
        [|done].
      rewrite run_bind, run_await. cbn [settle then_run].
      match goal with |- context [run o (isolated_loop env width height files) ?t] =>
        specialize (IH t); destruct (run o (isolated_loop env width height files) t)
          as [[? ?] ?] end.
      unfold result_of in *. cbn [fst snd andb] in *. rewrite IH.
      by destruct (bool_decide (files ≠ [])).
    + rewrite run_bind, run_await. cbn [settle then_run].
      match goal with |- context [run o (isolated_loop env width height files) ?t] =>
        specialize (IH t); destruct (run o (isolated_loop env width height files) t)
          as [[? ?] ?] end.
      unfold result_of in *. cbn [fst snd andb] in *. exact IH.
Qed.

(** X12: [createTesters] is rejected exactly when there is a UI, the UI's
    [setIframeViewport] is rejected and there is an iframe to size: in
    shared mode, or in isolated mode with a file. Without the UI adapter it
    is always fulfilled. *)
Theorem createTesters_rejected env o files s :
  result_of (run o (createTesters env files) s) = None ↔
  ui_api env = true ∧
  o (UiSetIframeViewport (viewport env).1 (viewport env).2) = Rejected ∧
  (isolate env = Some false ∨ files ≠ []).
Proof.
  rewrite run_createTesters. case_bool_decide as Hiso.
  - rewrite run_bind, run_createIframe. cbn [then_run].
    rewrite run_setIframeViewport.
    destruct (ui_api env); unfold result_of; cbn [fst snd]; [|naive_solver].
    destruct (o _); cbn; naive_solver.
  - rewrite run_isolated_loop_result.
    destruct (ui_api env); cbn [andb]; [|naive_solver].
    case_bool_decide as Hfiles; [|naive_solver].
    destruct (o _); cbn; naive_solver.
Qed.

Lemma torn_down_fields env s :
  iframes (torn_down env s) = ∅ ∧
  children (torn_down env s) =
    (if browser_ui env then []
     else filter (λ h, h ∉ (map_to_list (iframes s)).*2) (children s)) ∧
  next_handle (torn_down env s) = next_handle s ∧
  runningFiles (torn_down env s) = runningFiles s.
Proof. unfold torn_down. by destruct (browser_ui env). Qed.

(** X13: in shared mode, however many files there are and whatever the
    registry held, [createTesters] leaves one handle in the registry, that
    of a new iframe under [ID_ALL], the only iframe it puts on the page;
    the iframes the registry held are off the page, the others stay unless
    the container is the UI's, which is emptied; the running files are the
    files asked for. *)
Theorem createTesters_shared_store env o files s :
  isolate env = Some false →
  let r := run o (createTesters env files) s in
  iframes (store_after r) = {[ID_ALL := next_handle s]} ∧
  children (store_after r) =
    (if browser_ui env then []
     else filter (λ h, h ∉ (map_to_list (iframes s)).*2) (children s))
    ++ [next_handle s] ∧
  runningFiles (store_after r) = list_to_set files ∧
  created (Did <$> effects_of r) = [ID_ALL].
Proof.
  intros Hiso. cbn zeta. rewrite run_createTesters, bool_decide_true by done.
  rewrite run_bind, run_createIframe. cbn [then_run].
  match goal with |- context [torn_down env ?t] =>
    destruct (torn_down_fields env t) as (Hi & Hc & Hn & Hr);
    destruct (created_store_spec ID_ALL (torn_down env t)) as (Hi' & Hc' & Hn');
    fold (created_store ID_ALL (torn_down env t)) end.
  cbn [iframes children next_handle runningFiles set_runningFiles] in *.
  rewrite Hi, lookup_empty in Hc'. rewrite Hi, Hn in Hi'. rewrite Hc, Hn in Hc'.
  assert (Hrun : runningFiles (created_store ID_ALL
            (torn_down env (set_runningFiles (λ _, list_to_set files) s)))
          = list_to_set files).
  { unfold created_store. rewrite Hi, lookup_empty.
    rewrite bool_decide_false by (intros [? ?]; done).
    cbn [runningFiles set_children set_iframes create_element]. exact Hr. }
  rewrite run_setIframeViewport. rewrite Hn.
  destruct (ui_api env); unfold store_after, effects_of; cbn [fst snd].
  - rewrite Hi', Hc', Hrun. by rewrite insert_empty.
  - cbn [iframes children runningFiles set_style]. rewrite Hi', Hc', Hrun.
    by rewrite insert_empty.
Qed.

Lemma createTesters_shared_store_witness :
  isolate shared = Some false ∧
  let s := store_with ["old"] [("old", 0)] in
  let r := run all_resolve (createTesters shared ["a"; "b"; "c"]) s in
  iframes (store_after r) = {[ID_ALL := next_handle s]} ∧
  children (store_after r) =
    (if browser_ui shared then []
     else filter (λ h, h ∉ (map_to_list (iframes s)).*2) (children s))
    ++ [next_handle s] ∧
  runningFiles (store_after r) = list_to_set ["a"; "b"; "c"] ∧
  created (Did <$> effects_of r) = [ID_ALL].
Proof.
  split; [reflexivity|].
  exact (createTesters_shared_store shared all_resolve ["a"; "b"; "c"]
           (store_with ["old"] [("old", 0)]) eq_refl).
Defined.



(** ** The beginning of [createTesters] *)

Lemma createTesters_shape env files s :
  ∃ r, createTesters env files s = (set_runningFiles (λ _, list_to_set files) s, [], r) ∧
       ((browser_ui env && negb (tester_ui s) = false ∧
         resumes_with (after_container env files) r) ∨
        (browser_ui env && negb (tester_ui s) = true ∧
         ∃ k, r = Suspended WContainer k ∧
              ∀ o t, ∃ r', k o t = (t, [], r') ∧
                match o with
                | Resolved => resumes_with (after_container env files) r'
                | Rejected => r' = Thrown
                end)).
Proof.
  rewrite createTesters_unfold. generalize (after_container env files). intros X.
  assert (Hstart : ∀ k,
    (∀ o t, k o t = match o with Resolved => X t | Rejected => (t, [], Thrown) end) →
    resumes_with X (Suspended WTick k)).
  { intros k Hk. by exists k. }
  unfold getContainer.
  destruct (browser_ui env) eqn:Hui; [destruct (tester_ui s) eqn:Hel|]; cbn [andb negb].
  - unfold_async. cbn. rewrite Hel. cbn. eexists. split; [reflexivity|].
    left. split; [done|]. apply Hstart. intros [] t; cbn; [|done].
    by destruct (X t) as [[? ?] ?].
  - unfold_async. cbn. rewrite Hel. cbn. eexists. split; [reflexivity|].
    right. split; [done|]. eexists. split; [reflexivity|].
    intros [] t; cbn; (eexists; split; [reflexivity|]); [|done].
    apply Hstart. intros [] t'; cbn; [|done]. by destruct (X t') as [[? ?] ?].
  - unfold_async. cbn. eexists. split; [reflexivity|].
    left. split; [done|]. apply Hstart. intros [] t; cbn; [|done].
    by destruct (X t) as [[? ?] ?].
Qed.

(** X15: [createTesters] replaces the running files by its files before it
    awaits anything, and changes nothing else and does nothing else until
    the container is there: it waits for [#tester-ui] when the UI is
    configured and the element is missing, and then, as in the other case
    at once, one microtask before it tears the last run down. *)
Theorem createTesters_first_stretch env files s :
  ∃ k, createTesters env files s =
       (set_runningFiles (λ _, list_to_set files) s, [],
        Suspended (if browser_ui env && negb (tester_ui s) then WContainer else WTick) k) ∧
       if browser_ui env && negb (tester_ui s)
       then ∀ t, ∃ k', k Resolved t = (t, [], Suspended WTick k') ∧
                       ∀ t', k' Resolved t' = after_container env files t'
       else ∀ t, k Resolved t = after_container env files t.
Proof.
  destruct (createTesters_shape env files s)
    as (r & Heq & [(-> & k & -> & Hk)|(-> & k & -> & Hk)]).
  - exists k. split; [done|]. intros t. apply (Hk Resolved).
  - exists k. split; [done|]. intros t.
    destruct (Hk Resolved t) as (r' & Hr' & k' & -> & Hk'). exists k'.
    split; [done|]. intros t'. apply (Hk' Resolved).
Qed.

(** ** Shared mode *)

Lemma quiet_unfolds {A} (r : stage A) items :
  unfolds r items → quiet r → marks items = [].
Proof.
  induction 1 as [r|w k o s s' l r items Hw Hk Hunf IH|k e s s' l r items He Hk Hunf IH];
    intros Hq; [done| |by inversion Hq].
  inversion Hq as [| |? ? _ Hl Hr]; subst.
  specialize (Hl o s). specialize (Hr o s). rewrite Hk in Hl, Hr. cbn [fst snd] in *.
  change (marks (?x :: ?l)) with (marks [x] ++ marks l).
  rewrite marks_app, Hl, IH by done. done.
Qed.

Lemma shared_rest_shape env width height s :
  ∃ s1 r,
    (iframe ← createIframe ID_ALL; awaited (setIframeViewport env iframe width height)) s
    = (s1, Appended ID_ALL (next_handle s) ::
           (if ui_api env then [Called (UiSetIframeViewport width height)] else []), r) ∧
    quiet r.
Proof.
  unfold mbind, async_bind, bind at 1.
  rewrite createIframe_eq. cbn [bind_stage]. cbv beta.
  match goal with |- context [set_children ?f ?x] =>
    generalize (set_children f x) end.
  intros s1. unfold setIframeViewport. destruct (ui_api env).
  - unfold_async. cbn. eexists _, _. split; [reflexivity|].
    constructor; [done|by intros [] ?|]. intros [] s'; cbn; [|constructor].
    constructor; [done|by intros [] ?|]. intros [] s''; cbn; constructor.
  - unfold_async. cbn. eexists _, _. split; [reflexivity|].
    constructor; [done|by intros [] ?|]. intros [] s'; cbn; constructor.
Qed.

Lemma resumes_shared env files r items :
  isolate env = Some false →
  resumes_with (after_container env files) r → unfolds r items →
  marks items `prefix_of` [inl ID_ALL].
Proof.
  intros Hiso (k & -> & Hk) Hunf.
  inversion Hunf as [|? ? o s s' l r' items' Hw Hstep Hrest|]; subst.
  - apply prefix_nil.
  - rewrite Hk in Hstep. change (marks (?x :: ?l)) with (marks [x] ++ marks l).
    cbn [marks omap app]. change (omap _ ?x) with (marks x). destruct o.
    + rewrite after_container_torn_down, bool_decide_true in Hstep by done.
      destruct (shared_rest_shape env (viewport env).1 (viewport env).2 (torn_down env s))
        as (s1 & r1 & Heq & Hq).
      rewrite Heq in Hstep. injection Hstep as <- <- <-.
      rewrite fmap_cons, <- app_comm_cons.
      change (marks (?x :: ?l)) with (marks [x] ++ marks l).
      rewrite marks_app, marks_effects_quiet, (quiet_unfolds _ _ Hrest Hq). done.
    + injection Hstep as <- <- <-. apply unfolds_thrown in Hrest as ->. apply prefix_nil.
Qed.

Lemma no_observed_in_marks items ms :
  marks items `prefix_of` ms → (∀ e, inr e ∉ ms) → ∀ e, Observed e ∉ items.
Proof.
  intros [tail Hms] Hno e He. apply (Hno e). rewrite Hms. apply elem_of_app. left.
  unfold marks. apply list_elem_of_omap. by exists (Observed e).
Qed.

(** X16: in shared mode, whatever else happens on the page, [createTesters]
    puts at most one iframe on the page, that of [ID_ALL], and never goes
    past a wait on the channel: its promise settles without any [done] or
    [error] message. *)
Theorem shared_mode_does_not_wait env files items :
  isolate env = Some false →
  behaves (createTesters env files) items →
  created items `prefix_of` [ID_ALL] ∧ ∀ e, Observed e ∉ items.
Proof.
  intros Hiso (s & s' & l & r & rest & Heq & Hunf & ->).
  destruct (createTesters_shape env files s) as (r0 & Heq0 & Hr0).
  rewrite Heq0 in Heq. injection Heq as <- <- <-. cbn [fmap list_fmap app].
  assert (Hmarks : marks rest `prefix_of` [inl ID_ALL]).
  { destruct Hr0 as [[_ Hstart]|(_ & k & -> & Hk)]; [by eapply resumes_shared|].
    inversion Hunf as [|? ? o t t' l r' items' Hw Hstep Hrest|]; subst.
    - apply prefix_nil.
    - destruct (Hk o t) as (r'' & Heq & Hr''). rewrite Heq in Hstep.
      injection Hstep as <- <- <-. cbn [fmap list_fmap app].
      change (marks (?x :: ?l)) with (marks [x] ++ marks l).
      cbn [marks omap app]. change (omap _ ?x) with (marks x). destruct o.
      + by eapply resumes_shared.
      + subst r''. apply unfolds_thrown in Hrest as ->. apply prefix_nil. }
  split.
  - rewrite created_marks. destruct Hmarks as [tail Htail].
    destruct (marks rest) as [|m [|m' ms]]; simplify_eq/=;
      [apply prefix_nil|done].
  - eapply no_observed_in_marks; [exact Hmarks|].
    intros e He. apply list_elem_of_singleton in He. done.
Qed.

Lemma shared_mode_does_not_wait_witness :
  let items := [Resumed WTick Resolved; Did (Appended ID_ALL 0)] in
  isolate shared = Some false ∧
  behaves (createTesters shared ["a"; "b"]) items ∧
  created items `prefix_of` [ID_ALL] ∧ ∀ e, Observed e ∉ items.
Proof.
  cbn zeta.
  assert (Hb : behaves (createTesters shared ["a"; "b"])
                 [Resumed WTick Resolved; Did (Appended ID_ALL 0)]).
  { eexists initial_store, _, _, _, _. split; [reflexivity|]. split; [|reflexivity].
    eapply (unfolds_settle _ _ Resolved initial_store _ [Appended ID_ALL 0] _ []);
      [done|reflexivity|constructor]. }
  split; [reflexivity|]. split; [exact Hb|].
  exact (shared_mode_does_not_wait shared ["a"; "b"] _ eq_refl Hb).
Defined.

(** ** The iframe of a sandbox that failed *)

(** X17: on a store that the page can reach, an [error] event of an id that
    has a handle makes an orphan of its iframe: the iframe stays on the
    page, and no identifier of the registry leads to it any more. *)
Theorem error_event_orphans env o inputs error errorType files id h :
  let s := mem (steps env initial_page inputs) in
  iframes s !! id = Some h →
  orphan h (store_after (run o (listener env (IframeErrorEvent error errorType files id)) s)).
Proof.
  cbn zeta. intros Hh.
  pose proof (steps_stable env page_ok [] inputs (page_ok_stable env) page_ok_initial)
    as [[_ _ Hmade Hinj] Hatt].
  cbn [app] in *. revert Hh Hmade Hinj Hatt.
  generalize (mem (steps env initial_page inputs)). intros s Hh Hmade Hinj Hatt.
  destruct (error_event_store env o error errorType files id s) as [Hi _].
  cbn zeta in Hi.
  assert (Hpage : children (store_after (run o (listener env
              (IframeErrorEvent error errorType files id)) s)) = children s ∧
            next_handle (store_after (run o (listener env
              (IframeErrorEvent error errorType files id)) s)) = next_handle s).
  { rewrite run_listener_error. cbn zeta. destruct (o _); [|done].
    by repeat case_bool_decide. }
  destruct Hpage as [Hc Hn]. split; rewrite ?Hi, ?Hc, ?Hn.
  - by eapply Hatt.
  - intros id' Hid'. destruct (decide (id' = id)) as [->|Hne].
    + by rewrite lookup_delete_eq in Hid'.
    + rewrite lookup_delete_ne in Hid' by done. by pose proof (Hinj _ _ _ Hid' Hh).
  - by eapply Hmade.
Qed.

Lemma error_event_orphans_witness :
  let error := {| err_name := "Error"; err_message := "boom" |} in
  let inputs := [Open ["a"; "b"]; Settle 0 Resolved; Settle 0 Resolved] in
  let s := mem (steps headless initial_page inputs) in
  iframes s !! "a" = Some 0 ∧
  orphan 0 (store_after (run all_reject
              (listener headless (IframeErrorEvent error "Unhandled Error" ["a"] "a")) s)).
Proof.
  cbn zeta.
  assert (Hh : iframes (mem (steps headless initial_page
             [Open ["a"; "b"]; Settle 0 Resolved; Settle 0 Resolved])) !! "a" = Some 0)
    by (vm_compute; reflexivity).
  split; [exact Hh|].
  exact (error_event_orphans headless all_reject
           [Open ["a"; "b"]; Settle 0 Resolved; Settle 0 Resolved]
           {| err_name := "Error"; err_message := "boom" |} "Unhandled Error" ["a"] "a" 0 Hh).
Defined.
